(** * lib_cmd: the command parser of bit-hack/command

    A shallow embedding of [src/lib_cmd/cmd.h] and [src/lib_cmd/cmd.cpp]:
    the string utilities of [cmd_util_t], the token list [cmd_tokens_t],
    the tokenizer and the dispatcher [cmd_parser_t].

    Conventions of the embedding.
    - A [const char*] argument is the [string] of the characters before its
      terminator; reading the terminator is reaching the end of the string.
      Where the source takes [c_str()] of a [std::string] that comes from
      outside, the statement given to [execute_imp] and the word given to
      [push], the embedding cuts it at its first NUL with [c_str].
    - [uint64_t] and [uint32_t] values are integers in [Z] reduced modulo
      2^64 and 2^32 after every operation; [int32_t] results are in [Z].
      The counter of [str_match] is in [Z] as well: it is the [int32_t] of
      the source as long as fewer than 2^31 - 1 characters match, the bound
      under which its value is stated.
    - Code that may loop for ever takes a [fuel] argument and answers
      [Timeout] when it runs out; code that reads what C++ leaves undefined
      answers [Undefined]; a failed [assert] answers [AssertFail]. The
      argument [ndebug] says whether the build defines NDEBUG.
    - The output sink is the list of the events it has received: an event
      is one call of a method of [cmd_output_t], which is abstract. *)

From Stdlib Require Import ZArith String Ascii List Lia Bool DecimalString.
From Stdlib Require Decimal DecimalPos DecimalN.
From stdpp Require Import gmap strings list fin_maps.

Set Warnings "-register-all".

Local Open Scope Z_scope.
Local Open Scope string_scope.

(** ** Outcomes of running a piece of code *)

Inductive outcome (A : Type) : Type :=
| Ret (a : A)
| Undefined
| AssertFail
| Timeout.

Arguments Ret {A} a.
Arguments Undefined {A}.
Arguments AssertFail {A}.
Arguments Timeout {A}.

#[global] Instance outcome_ret : MRet outcome := fun A a => Ret a.

#[global] Instance outcome_bind : MBind outcome := fun A B f m =>
  match m with
  | Ret a => f a
  | Undefined => Undefined
  | AssertFail => AssertFail
  | Timeout => Timeout
  end.

(** ** C strings *)

(** [std::string::c_str] read as a C string: the characters before the
    first NUL. *)
Fixpoint c_str (s : string) : string :=
  match s with
  | EmptyString => EmptyString
  | String c s' => if Ascii.eqb c Ascii.zero then EmptyString else String c (c_str s')
  end.

Fixpoint no_nul (s : string) : bool :=
  match s with
  | EmptyString => true
  | String c s' => negb (Ascii.eqb c Ascii.zero) && no_nul s'
  end.

(** ** cmd_util_t *)

Module cmd_util_t.

Definition INT_MAX : Z := 2147483647.

Definition u64 (z : Z) : Z := z mod 2 ^ 64.
Definition u32 (z : Z) : Z := z mod 2 ^ 32.

(** [str_match]: the loop [for (i = 0;; ++i)] of cmd.cpp:61-84. The two
    strings are the parts of [str] and [sub] from index [i] on. The source
    counts [i] in an [int32_t], which [++i] overflows once 2^31 - 1
    characters have matched; here [i] is in [Z], and agrees with the source
    below that bound. *)
Fixpoint str_match_from (i : Z) (str sub : string) : Z :=
  match str with
  | EmptyString =>
      (* end of source string *)
      match sub with
      | EmptyString => INT_MAX   (* perfect match *)
      | String _ _ => -1         (* substring too long *)
      end
  | String c str' =>
      match sub with
      | EmptyString => i         (* end of sub string *)
      | String d sub' =>
          if Ascii.eqb c d then str_match_from (i + 1) str' sub'
          else -1                (* string differ *)
      end
  end.

Definition str_match (str sub : string) : Z := str_match_from 0 str sub.

(** How the scanning loop of [strtoll] ends: it runs to the terminator
    with an accumulated value, or leaves early, returning whether the
    current character is a space. *)
Inductive scan_end : Type :=
| ScanDone (accum : Z)
| ScanReturn (b : bool).

Definition in_range (lo hi : string) (ch : ascii) : bool :=
  match lo, hi with
  | String l _, String h _ =>
      (nat_of_ascii l <=? nat_of_ascii ch)%nat && (nat_of_ascii ch <=? nat_of_ascii h)%nat
  | _, _ => false
  end.

Definition code (ch : ascii) : Z := Z.of_nat (nat_of_ascii ch).

(** The scanning loop of cmd.cpp:99-113, one character per iteration. *)
Fixpoint strtoll_scan (base : Z) (in_ : string) (accum : Z) : scan_end :=
  match in_ with
  | EmptyString => ScanDone accum
  | String ch in' =>
      let accum := u64 (accum * base) in
      if in_range "0" "9" ch then
        strtoll_scan base in' (u64 (accum + (code ch - code "0")))
      else if Z.eqb base 16 then
        if in_range "a" "f" ch then
          strtoll_scan base in' (u64 (accum + ((code ch - code "a") + 10)))
        else if in_range "A" "F" ch then
          strtoll_scan base in' (u64 (accum + ((code ch - code "A") + 10)))
        else
          strtoll_scan base in' accum
      else
        ScanReturn (Ascii.eqb ch " ")
  end.

(** [strtoll in out neg] of cmd.cpp:86-115, as a function of the input
    and of the value [out] holds on entry. The result is the returned
    flag, the final [out] and the final [neg]. *)
Definition strtoll (in_ : string) (out : Z) : bool * Z * bool :=
  let '(neg, in1) :=
    match in_ with
    | String "-" rest => (true, rest)
    | _ => (false, in_)
    end in
  let '(base, in2) :=
    match in1 with
    | String "0" (String "x" rest) => (16, rest)
    | _ => (10, in1)
    end in
  match strtoll_scan base in2 0 with
  | ScanDone accum => (true, accum, neg)
  | ScanReturn b => (b, out, neg)
  end.

Definition MIN3 (a b c : Z) : Z :=
  if Z.ltb a b then (if Z.ltb a c then a else c) else (if Z.ltb b c then b else c).

(** [column] is the block of [s1len + 1] cells that [alloca] returns:
    a cell holds [None] until it is first written. *)
Definition read (column : list (option Z)) (y : nat) : outcome Z :=
  match column !! y with
  | Some (Some v) => Ret v
  | _ => Undefined
  end.

Definition char_at (s : string) (i : nat) : ascii :=
  match String.get i s with
  | Some c => c
  | None => zero
  end.

(** [for (y = 1; y <= s1len; y++) column[y] = y;] with [n] iterations left. *)
Fixpoint lev_init (n : nat) (y : nat) (column : list (option Z)) : list (option Z) :=
  match n with
  | O => column
  | S n' => lev_init n' (S y) (<[y := Some (u32 (Z.of_nat y))]> column)
  end.

(** The inner loop over [y], cmd.cpp:129-135, with [n] iterations left. *)
Fixpoint lev_inner (n : nat) (s1 s2 : string) (x y : nat) (lastdiag : Z)
    (column : list (option Z)) : outcome (list (option Z)) :=
  match n with
  | O => Ret column
  | S n' =>
      olddiag ← read column y;
      above ← read column (y - 1)%nat;
      let cost := if Ascii.eqb (char_at s1 (y - 1)) (char_at s2 (x - 1)) then 0 else 1 in
      let v := MIN3 (u32 (olddiag + 1)) (u32 (above + 1)) (u32 (lastdiag + cost)) in
      lev_inner n' s1 s2 x (S y) olddiag (<[y := Some v]> column)
  end.

(** The outer loop over [x], cmd.cpp:127-136, with [n] iterations left. *)
Fixpoint lev_outer (n : nat) (s1 s2 : string) (x : nat)
    (column : list (option Z)) : outcome (list (option Z)) :=
  match n with
  | O => Ret column
  | S n' =>
      let column := <[0%nat := Some (u32 (Z.of_nat x))]> column in
      column ← lev_inner (String.length s1) s1 s2 x 1 (u32 (Z.of_nat x - 1)) column;
      lev_outer n' s1 s2 (S x) column
  end.

Definition levenshtein (s1 s2 : string) : outcome Z :=
  let s1len := String.length s1 in
  let s2len := String.length s2 in
  let column := lev_init s1len 1 (replicate (s1len + 1) None) in
  column ← lev_outer s2len s1 s2 1 column;
  read column s1len.

End cmd_util_t.

(** ** cmd_token_t and cmd_tokens_t *)

(** A [cmd_token_t] wraps one [std::string]. *)
Abbreviation cmd_token_t := string (only parsing).

(** [std::map<std::string, uint64_t>] *)
Abbreviation cmd_idents_t := (gmap string Z) (only parsing).

(** [std::to_string] of a [uint64_t]: its decimal digits. *)
Definition to_string (val : Z) : string :=
  NilZero.string_of_uint (N.to_uint (Z.to_N val)).

Module cmd_token_t.

(** The instance of [get<type_t>] at [uint64_t], cmd.h:197-207: [None] is
    the [false] answer, which leaves [out] as it was. *)
Definition get_u64 (token_ : cmd_token_t) : option Z :=
  let '(ok, value, neg) := cmd_util_t.strtoll token_ 0 in
  if ok then Some (if neg : bool then cmd_util_t.u64 (0 - value) else value)
  else None.

(** The conversion of a [uint64_t] to [int64_t]. *)
Definition to_i64 (v : Z) : Z :=
  if Z.ltb v (2 ^ 63) then v else v - 2 ^ 64.

(** The instance of [get<type_t>] at [int64_t]. *)
Definition get_i64 (token_ : cmd_token_t) : option Z :=
  to_i64 <$> get_u64 token_.

End cmd_token_t.

Record cmd_tokens_t : Type := mk_tokens {
  idents_ : option cmd_idents_t;        (* the pointer may be null *)
  raw_ : list cmd_token_t;               (* raw tokens *)
  stage_pair_ : string * cmd_token_t;    (* staging area for pairs *)
  tokens_ : list cmd_token_t;            (* basic token arguments *)
  pairs_ : gmap string cmd_token_t;      (* key value pair arguments *)
  flags_ : gset string                   (* switch flag *)
}.

Module cmd_tokens_t.

(** The constructor [cmd_tokens_t(cmd_idents_t* idents)]. *)
Definition new (idents : option cmd_idents_t) : cmd_tokens_t :=
  {| idents_ := idents; raw_ := []; stage_pair_ := ("", "");
     tokens_ := []; pairs_ := ∅; flags_ := ∅ |}.

Definition token_size (t : cmd_tokens_t) : nat := length (tokens_ t).

Definition token_empty (t : cmd_tokens_t) : bool :=
  match tokens_ t with [] => true | _ => false end.

Definition empty (s : string) : bool :=
  match s with EmptyString => true | _ => false end.

(** [input.find("-") == 0] *)
Definition is_flag (input : string) : bool :=
  match input with String "-" _ => true | _ => false end.

(** The identifier substitution of cmd.h:306-316. The identifier looked up
    is [input.c_str() + 1], the rest of the word up to its first NUL. *)
Definition substitute (idents : option cmd_idents_t) (input : string) : string :=
  match idents with
  | Some ids =>
      match input with
      | String "$" temp =>
          match ids !! c_str temp with
          | Some val => to_string val
          | None => input
          end
      | _ => input
      end
  | None => input
  end.

(** [push], cmd.h:295-333. *)
Definition push (input : string) (t : cmd_tokens_t) : cmd_tokens_t :=
  let first := fst (stage_pair_ t) in
  let second := snd (stage_pair_ t) in
  if empty input then
    (* flush when input is empty *)
    if negb (empty first) then
      {| idents_ := idents_ t; raw_ := raw_ t; stage_pair_ := ("", second);
         tokens_ := tokens_ t; pairs_ := pairs_ t;
         flags_ := {[first]} ∪ flags_ t |}
    else t
  else
    let input := substitute (idents_ t) input in
    let raw := (raw_ t ++ [input])%list in
    if is_flag input then
      {| idents_ := idents_ t; raw_ := raw; stage_pair_ := (input, second);
         tokens_ := tokens_ t; pairs_ := pairs_ t;
         flags_ := if negb (empty first) then {[first]} ∪ flags_ t else flags_ t |}
    else if negb (empty first) then
      {| idents_ := idents_ t; raw_ := raw; stage_pair_ := ("", second);
         tokens_ := tokens_ t; pairs_ := <[first := input]> (pairs_ t);
         flags_ := flags_ t |}
    else
      {| idents_ := idents_ t; raw_ := raw; stage_pair_ := stage_pair_ t;
         tokens_ := (tokens_ t ++ [input])%list; pairs_ := pairs_ t;
         flags_ := flags_ t |}.

(** [token_pop], cmd.h:345-358. [ndebug] says whether the build defines
    NDEBUG, which compiles the assertions away. *)
Definition token_pop (ndebug : bool) (t : cmd_tokens_t) : outcome (bool * cmd_tokens_t) :=
  match tokens_ t with
  | tok :: tokens' =>
      match raw_ t with
      | [] => if ndebug then Undefined else AssertFail
      | r :: raw' =>
          if String.eqb r tok then
            (* pop prefixed tokens *)
            Ret (true,
                 {| idents_ := idents_ t; raw_ := raw'; stage_pair_ := stage_pair_ t;
                    tokens_ := tokens'; pairs_ := pairs_ t; flags_ := flags_ t |})
          else if ndebug then Ret (false, t) else AssertFail
      end
  | [] => if ndebug then Ret (false, t) else AssertFail
  end.

Definition flag_get (name : string) (t : cmd_tokens_t) : bool :=
  bool_decide (name ∈ flags_ t).

Definition pair_get (name : string) (t : cmd_tokens_t) : option cmd_token_t :=
  pairs_ t !! name.

(** [tokens_.pop_front()] *)
Definition tokens_pop_front (t : cmd_tokens_t) : cmd_tokens_t :=
  {| idents_ := idents_ t; raw_ := raw_ t; stage_pair_ := stage_pair_ t;
     tokens_ := tail (tokens_ t); pairs_ := pairs_ t; flags_ := flags_ t |}.

(** [get(std::string& out)], cmd.h:248-256, and [get(cmd_token_t& out)],
    cmd.h:270-278, which differ in the type of [out] only: [None] is the
    [false] answer, which leaves [out] and the list as they were. *)
Definition get_string (t : cmd_tokens_t) : option (string * cmd_tokens_t) :=
  match tokens_ t with
  | [] => None
  | front :: _ => Some (front, tokens_pop_front t)
  end.

(** [get(uint64_t& out)], cmd.h:258-268. *)
Definition get_uint64 (t : cmd_tokens_t) : option (Z * cmd_tokens_t) :=
  match tokens_ t with
  | [] => None
  | front :: _ =>
      match cmd_token_t.get_u64 front with
      | None => None
      | Some out => Some (out, tokens_pop_front t)
      end
  end.

(** The loop of [token_find], cmd.h:380-388. *)
Fixpoint token_find_in (in_ : string) (toks : list cmd_token_t) : bool :=
  match toks with
  | [] => false
  | tok :: toks' => if String.eqb tok in_ then true else token_find_in in_ toks'
  end.

Definition token_find (in_ : string) (t : cmd_tokens_t) : bool :=
  token_find_in in_ (tokens_ t).

End cmd_tokens_t.

(** ** The tokenizer, cmd.cpp:29-57 *)

Definition is_char (c : string) (ch : ascii) : bool :=
  match c with String c0 _ => Ascii.eqb ch c0 | _ => false end.

Definition TAB : string := String (ascii_of_nat 9) EmptyString.

(** [std::string(start, src)]: the characters of [in] from [start] up to [src]. *)
Definition between (in_ : string) (start src : nat) : string :=
  substring start (src - start) in_.

(** [for (; *src == ' '; ++src)], with [n] characters left to look at. *)
Fixpoint skip_spaces (n : nat) (in_ : string) (src : nat) : nat :=
  match n with
  | O => src
  | S n' =>
      match String.get src in_ with
      | Some ch => if is_char " " ch then skip_spaces n' in_ (S src) else src
      | None => src
      end
  end.

(** The [while ( *src )] loop; [src] and [start] are offsets into [in]. *)
Fixpoint tokenize_loop (fuel : nat) (in_ : string) (src start : nat)
    (out : cmd_tokens_t) : outcome (nat * nat * cmd_tokens_t) :=
  match fuel with
  | O => Timeout
  | S fuel' =>
      match String.get src in_ with
      | None => Ret (src, start, out)
      | Some ch =>
          (* find for next white space *)
          if is_char " " ch || is_char TAB ch then
            (* extract this token *)
            let out := cmd_tokens_t.push (between in_ start src) out in
            (* skip trailing white space *)
            let src := skip_spaces (String.length in_) in_ src in
            tokenize_loop fuel' in_ src src out
          else
            tokenize_loop fuel' in_ (S src) start out
      end
  end.

(** [tokenize in out]: the number of tokens and the final [out]. *)
Definition tokenize (fuel : nat) (in_ : string) (out : cmd_tokens_t)
    : outcome (nat * cmd_tokens_t) :=
  '(src, start, out) ← tokenize_loop fuel in_ 0 0 out;
  (* skip any trailing tokens *)
  let out := if negb (Nat.eqb src start)
             then cmd_tokens_t.push (between in_ start src) out else out in
  (* flush tokens *)
  let out := cmd_tokens_t.push "" out in
  (* return number of tokens *)
  Ret (cmd_tokens_t.token_size out, out).

(** ** The output sink *)

(** What reaches a [cmd_output_t], in order. [Println text] is one call of
    [println] with a format of the source and its arguments, [text] being
    the formatted line. [PrintlnRaw fmt] is a call [println(indent, fmt)]
    in which the format is a string of the run and no argument follows it:
    cmd.h:109 declares [println(bool indent, const char* fmt, ...)] only, so
    that in [out.println("    %s", name)] and [out.println("> %s", prev)]
    of cmd.cpp the first string is taken for [indent] and the second one is
    the format. What a sink makes of a conversion in such a format is not
    defined. *)
Inductive event : Type :=
| Println (text : string)
| PrintlnRaw (fmt : string)
| CommandFailed (cmd : string).

(** Modelled from the spec: [cmd_locale_t::command_failed], which cmd.cpp:164
    calls and cmd.h does not declare; the dispatcher "reports command failed
    for that statement". *)
Definition command_failed (out : list event) (cmd : string) : list event :=
  (out ++ [CommandFailed cmd])%list.

Module cmd_locale_t.

Definition possible_completions (out : list event) : list event :=
  (out ++ [Println "possible completions:"])%list.

Definition invalid_command (out : list event) : list event :=
  (out ++ [Println "invalid command"])%list.

End cmd_locale_t.

(** ** cmd_t, the command base class *)

Module cmd_t.

(** A command with its sub commands. The two virtual methods are fields:
    a handler receives the tokens and the output written so far, and
    answers its [bool] with the output it leaves. Handlers are taken to
    leave the parser itself alone. *)
Inductive t : Type := mk {
  name_ : string;
  sub_ : list t;
  on_execute : cmd_tokens_t -> list event -> bool * list event;
  on_usage : list event -> bool * list event
}.

Definition FUZZYNESS : Z := 3.

(** The loop of cmd.cpp:284-288, which collects in [list] the sub commands
    whose name is near the token. *)
Fixpoint fuzzy_list (sub : list t) (tok_front : string) (list_ : list t)
    : outcome (list t) :=
  match sub with
  | [] => Ret list_
  | i :: sub' =>
      d ← cmd_util_t.levenshtein (name_ i) tok_front;
      fuzzy_list sub' tok_front (if Z.ltb d FUZZYNESS then (list_ ++ [i])%list else list_)
  end.



End cmd_t.

(** [find_matches], cmd.cpp:7-26: the loop body, then the function. *)
Definition find_matches_step (sub : string) (acc : Z * list cmd_t.t) (item : cmd_t.t)
    : Z * list cmd_t.t :=
  let '(score, vec) := acc in
  let val := cmd_util_t.str_match (cmd_t.name_ item) sub in
  if Z.ltb score val then (val, [item])
  else if Z.eqb val score then (score, (vec ++ [item])%list)
  else (score, vec) (* drop on the floor *).

Definition find_matches (list_ : list cmd_t.t) (sub : string) (vec : list cmd_t.t)
    : bool * list cmd_t.t :=
  let '(_, vec) := fold_left (find_matches_step sub) list_ (0, vec) in
  (Nat.ltb 0 (length vec), vec).

(** [std::string::find(char, pos)] *)
Fixpoint string_find (c : ascii) (pos : nat) (s : string) : option nat :=
  match s with
  | EmptyString => None
  | String d s' =>
      match pos with
      | O => if Ascii.eqb d c then Some O else S <$> string_find c O s'
      | S pos' => S <$> string_find c pos' s'
      end
  end.

(** [std::string::substr(pos)] *)
Definition substr_from (pos : nat) (s : string) : string :=
  substring pos (String.length s - pos) s.

(** ** cmd_parser_t, the command parser *)

Module cmd_parser_t.

Record t : Type := mk {
  sub_ : list cmd_t.t;                  (* root subcommand list *)
  history_ : list string;               (* user input history *)
  alias_ : gmap string cmd_t.t;         (* alias names to command instances *)
  idents_ : cmd_idents_t                (* expression identifier list *)
}.

(** [history_.back()]: undefined on an empty vector. *)
Definition last_cmd (p : t) : outcome string :=
  match last (history_ p) with
  | Some s => Ret s
  | None => Undefined
  end.

Definition history_push_back (expr : string) (p : t) : t :=
  {| sub_ := sub_ p; history_ := (history_ p ++ [expr])%list;
     alias_ := alias_ p; idents_ := idents_ p |}.

Definition alias_find (p : t) (alias : string) : option cmd_t.t :=
  alias_ p !! alias.

(** [tokens_.front()]: undefined on an empty deque. *)
Definition token_front (tokens : cmd_tokens_t) : outcome cmd_token_t :=
  match tokens_ tokens with
  | tok :: _ => Ret tok
  | [] => Undefined
  end.

(** The [while (!tokens.token_empty())] loop of cmd.cpp:194-215. At
    cmd.cpp:211 the name of a possible completion is the format of its
    line. *)
Fixpoint walk (ndebug : bool) (fuel : nat) (list_ : list cmd_t.t) (cmd : option cmd_t.t)
    (tokens : cmd_tokens_t) (out : list event)
    : outcome (option cmd_t.t * cmd_tokens_t * list event) :=
  match fuel with
  | O => Timeout
  | S fuel' =>
      if cmd_tokens_t.token_empty tokens then Ret (cmd, tokens, out)
      else
        (* find best matching sub command *)
        front ← token_front tokens;
        let '(_, cmd_vec) := find_matches list_ front [] in
        match cmd_vec with
        | [] =>
            (* no sub commands to match *)
            Ret (cmd, tokens, out)
        | [c] =>
            (* remove front item *)
            '(_, tokens) ← cmd_tokens_t.token_pop ndebug tokens;
            walk ndebug fuel' (cmd_t.sub_ c) (Some c) tokens out
        | _ =>
            (* ambiguous matches *)
            let out := cmd_locale_t.possible_completions out in
            let out := fold_left
              (fun out c => (out ++ [PrintlnRaw (cmd_t.name_ c)])%list)
              cmd_vec out in
            Ret (None, tokens, out)
        end
  end.

(** The choice of the target command, cmd.cpp:187-216. *)
Definition resolve (ndebug : bool) (fuel : nat) (p : t) (tokens : cmd_tokens_t)
    (out : list event) : outcome (option cmd_t.t * cmd_tokens_t * list event) :=
  (* check for aliases *)
  front ← token_front tokens;
  match alias_find p front with
  | Some cmd =>
      '(_, tokens) ← cmd_tokens_t.token_pop ndebug tokens;
      Ret (Some cmd, tokens, out)
  | None => walk ndebug fuel (sub_ p) None tokens out
  end.

(** The call of the target command, cmd.cpp:217-228. *)
Definition dispatch (cmd : option cmd_t.t) (tokens : cmd_tokens_t)
    (out : list event) : bool * list event :=
  match cmd with
  | Some cmd =>
      let toks := tokens_ tokens in
      match last toks with
      | Some tok =>
          if String.eqb tok "?" then cmd_t.on_usage cmd out
          else cmd_t.on_execute cmd tokens out
      | None => cmd_t.on_execute cmd tokens out
      end
  | None => (false, cmd_locale_t.invalid_command out)
  end.

(** [execute_imp], cmd.cpp:171-229. The tokenizer receives [expr.c_str()],
    and at cmd.cpp:180 [println] receives [prev_cmd.c_str()] as the
    format. *)
Fixpoint execute_imp (ndebug : bool) (fuel : nat) (p : t) (expr : string)
    (out : list event) : outcome (bool * t * list event) :=
  match fuel with
  | O => Timeout
  | S fuel' =>
      prev_cmd ← last_cmd p;
      (* add to history buffer *)
      let p := history_push_back expr p in
      (* tokenize command string *)
      '(n, tokens) ← tokenize fuel' (c_str expr) (cmd_tokens_t.new (Some (idents_ p)));
      if Nat.eqb n 0 then
        last ← last_cmd p;
        if negb (cmd_tokens_t.empty last) then
          let out := (out ++ [PrintlnRaw (c_str prev_cmd)])%list in
          execute_imp ndebug fuel' p prev_cmd out
        else
          (* no commands entered *)
          Ret (false, p, out)
      else
        '(cmd, tokens, out) ← resolve ndebug fuel' p tokens out;
        let '(b, out) := dispatch cmd tokens out in
        Ret (b, p, out)
  end.

(** The loop of [execute], cmd.cpp:148-167, with [n] iterations left. *)
Fixpoint execute_loop (ndebug : bool) (fuel : nat) (n : nat) (expr : string)
    (ix : nat) (p : t) (out : list event) : outcome (bool * t * list event) :=
  match n with
  | O => Timeout
  | S n' =>
      (* split by delimiter *)
      let '(cmd, active, ix) :=
        match string_find ";" ix expr with
        | None => (substr_from ix expr, false, ix)
        | Some next =>
            (if Nat.ltb ix next then substring ix (next - ix) expr else "",
             true, S next)
        end in
      (* execute single command *)
      '(ok, p, out) ←
        (if negb (cmd_tokens_t.empty cmd) then execute_imp ndebug fuel p cmd out
         else Ret (true, p, out));
      if negb ok then Ret (false, p, command_failed out cmd)
      else if active : bool then execute_loop ndebug fuel n' expr ix p out
      else Ret (true, p, out)
  end.

(** [execute], cmd.cpp:143-169. The loop runs once per delimiter and once
    more, so [S (length expr)] iterations are enough. *)
Definition execute (ndebug : bool) (fuel : nat) (p : t) (expr : string)
    (out : list event) : outcome (bool * t * list event) :=
  execute_loop ndebug fuel (S (String.length expr)) expr 0 p out.

Definition with_alias (p : t) (alias : gmap string cmd_t.t) : t :=
  {| sub_ := sub_ p; history_ := history_ p; alias_ := alias; idents_ := idents_ p |}.

(** [alias_add], cmd.cpp:239-244; the command pointer is never null here. *)
Definition alias_add (ndebug : bool) (p : t) (cmd : cmd_t.t) (alias : string)
    : outcome (bool * t) :=
  if cmd_tokens_t.empty alias && negb ndebug then AssertFail
  else Ret (true, with_alias p (<[alias := cmd]> (alias_ p))).

(** [alias_remove(const std::string&)], cmd.cpp:246-255. *)
Definition alias_remove (p : t) (alias : string) : bool * t :=
  match alias_ p !! alias with
  | Some _ => (true, with_alias p (delete alias (alias_ p)))
  | None => (false, p)
  end.

(** [alias_remove] by command pointer, cmd.cpp:257-268: one pass over the
    entries of the map. [is_cmd] is the comparison of an entry's pointer
    with the argument. *)
Definition alias_remove_cmd (p : t) (is_cmd : cmd_t.t -> bool) : bool * t :=
  (true,
   with_alias p
     (fold_left (fun m '(alias, c) => if is_cmd c then delete alias m else m)
        (map_to_list (alias_ p)) (alias_ p))).

End cmd_parser_t.

(** * Notions used to state the properties *)

(** A token list as the code can build one: by the constructor, by [push],
    and by a [token_pop] that answers [true]. *)
Inductive built : cmd_tokens_t -> Prop :=
| built_new idents : built (cmd_tokens_t.new idents)
| built_push input t : built t -> built (cmd_tokens_t.push input t)
| built_pop ndebug t t' :
    built t -> cmd_tokens_t.token_pop ndebug t = Ret (true, t') -> built t'.

(** [aligned raw tokens]: reading [raw] from the front, a word that is a
    flag is skipped, alone or with the value that follows it, and a word
    that is not a flag is the next entry of [tokens]. *)
Inductive aligned : list string -> list string -> Prop :=
| aligned_nil : aligned [] []
| aligned_flag w raw toks :
    cmd_tokens_t.is_flag w = true -> aligned raw toks -> aligned (w :: raw) toks
| aligned_pair k v raw toks :
    cmd_tokens_t.is_flag k = true -> cmd_tokens_t.is_flag v = false ->
    aligned raw toks -> aligned (k :: v :: raw) toks
| aligned_positional w raw toks :
    cmd_tokens_t.is_flag w = false -> aligned raw toks ->
    aligned (w :: raw) (w :: toks).

(** The staged flag name, when there is one, is the last raw word. *)
Definition staged_ok (t : cmd_tokens_t) : Prop :=
  (stage_pair_ t).1 = "" \/
  (cmd_tokens_t.is_flag (stage_pair_ t).1 = true /\
   exists raw0, raw_ t = (raw0 ++ [(stage_pair_ t).1])%list).

Definition tokens_inv (t : cmd_tokens_t) : Prop :=
  aligned (raw_ t) (tokens_ t) /\
  (length (tokens_ t) + size (pairs_ t) <= length (raw_ t))%nat /\
  staged_ok t.


(** [pushes ws t]: the words [ws] pushed in order. *)
Definition pushes (ws : list string) (t : cmd_tokens_t) : cmd_tokens_t :=
  fold_left (fun t w => cmd_tokens_t.push w t) ws t.

(** The words of a string that holds no tab, as the tokenizer's loop comes
    to push them: [cur] is the word read so far, and [skipping] says that
    the last character was a space of a run already dealt with. *)
Fixpoint pushed_words (skipping : bool) (cur : string) (s : string) : list string :=
  match s with
  | EmptyString => if cmd_tokens_t.empty cur then [] else [cur]
  | String c s' =>
      if is_char " " c then
        if skipping then pushed_words true "" s'
        else cur :: pushed_words true "" s'
      else pushed_words false (cur ++ String c "") s'
  end.

Fixpoint no_tab (s : string) : bool :=
  match s with
  | EmptyString => true
  | String c s' => negb (is_char TAB c) && no_tab s'
  end.

Fixpoint no_space (s : string) : bool :=
  match s with
  | EmptyString => true
  | String c s' => negb (is_char " " c) && no_space s'
  end.

(** A run of [n] spaces. *)
Fixpoint spaces (n : nat) : string :=
  match n with
  | O => ""
  | S n' => String " " (spaces n')
  end.

(** Words with a run of [S gap] spaces after each, then a last word. *)
Fixpoint join_words (ws : list (string * nat)) (last : string) : string :=
  match ws with
  | [] => last
  | (w, gap) :: ws' => w ++ spaces (S gap) ++ join_words ws' last
  end.

(** The first character of a string, when there is one, is not a space. *)
Definition starts_word (r : string) : Prop :=
  match r with
  | EmptyString => True
  | String c _ => is_char " " c = false
  end.

(** A word as the user types one: not empty, without space or tab. *)
Definition plain_word (w : string) : Prop :=
  w <> "" /\ no_space w = true /\ no_tab w = true.

(** ** The edit distance, as a function on lists of characters *)

Definition cost (a b : ascii) : nat := if Ascii.eqb a b then 0 else 1.

Definition min3 (a b c : nat) : nat := Nat.min (Nat.min a b) c.

Fixpoint lev (s : list ascii) : list ascii -> nat :=
  match s with
  | [] => fun t => length t
  | a :: s' =>
      fix lev_s (t : list ascii) : nat :=
        match t with
        | [] => S (length s')
        | b :: t' => min3 (S (lev_s t')) (S (lev s' t)) (lev s' t' + cost a b)
        end
  end.

(** The characters of a string. *)
Definition chars (s : string) : list ascii := list_ascii_of_string s.

(** The distance between the first [y] characters of [l1] and the first [x]
    characters of [l2]. The table of the code is filled from the ends of
    the prefixes, hence the reversals. *)
Definition prefix_distance (l1 l2 : list ascii) (y x : nat) : nat :=
  lev (rev (take y l1)) (rev (take x l2)).

Definition edit_distance (s1 s2 : string) : nat :=
  lev (rev (chars s1)) (rev (chars s2)).

(** The statements of an expression, as a list: the parts between the
    delimiters, empty parts included. *)
Fixpoint split_on (c : ascii) (s : string) : list string :=
  match s with
  | EmptyString => [EmptyString]
  | String d s' =>
      if Ascii.eqb d c then EmptyString :: split_on c s'
      else match split_on c s' with
           | seg :: segs => String d seg :: segs
           | [] => [String d EmptyString]
           end
  end.

(** Running a list of statements in order: an empty one is passed over, the
    first one that fails is reported and ends the run with [false]. *)
Fixpoint run_statements (ndebug : bool) (fuel : nat) (segs : list string)
    (p : cmd_parser_t.t) (out : list event)
    : outcome (bool * cmd_parser_t.t * list event) :=
  match segs with
  | [] => Ret (true, p, out)
  | cmd :: rest =>
      if cmd_tokens_t.empty cmd then run_statements ndebug fuel rest p out
      else
        '(ok, p, out) ← cmd_parser_t.execute_imp ndebug fuel p cmd out;
        if ok : bool then run_statements ndebug fuel rest p out
        else Ret (false, p, command_failed out cmd)
  end.

(** ** The best matches of a word among commands *)

Definition score (sub : string) (c : cmd_t.t) : Z :=
  cmd_util_t.str_match (cmd_t.name_ c) sub.

(** The highest score in the list, and 0 when none is positive. *)
Definition best_score (list_ : list cmd_t.t) (sub : string) : Z :=
  fold_left (fun acc c => Z.max acc (score sub c)) list_ 0.


(** ** What the words of a token list look like *)

(** A word that can be a positional token or the value of a pair. *)
Definition plain (w : string) : Prop :=
  w <> "" /\ cmd_tokens_t.is_flag w = false.

Definition words_inv (t : cmd_tokens_t) : Prop :=
  Forall (fun w => w <> "") (raw_ t) /\
  Forall plain (tokens_ t) /\
  (forall f, f ∈ flags_ t -> cmd_tokens_t.is_flag f = true) /\
  (forall k v, pairs_ t !! k = Some v -> cmd_tokens_t.is_flag k = true /\ plain v).

(** Every raw word that is a flag name is in [flags], is the key of a
    pair, or is the name staged. *)
Definition flags_kept (t : cmd_tokens_t) : Prop :=
  forall w, In w (raw_ t) -> cmd_tokens_t.is_flag w = true ->
    w ∈ flags_ t \/ is_Some (pairs_ t !! w) \/ w = (stage_pair_ t).1.

(** ** Numbers *)

(** How [strtoll] goes on after its tests of the sign and of the prefix. *)
Definition strtoll_rest (base : Z) (neg : bool) (in_ : string) (out : Z) : bool * Z * bool :=
  match cmd_util_t.strtoll_scan base in_ 0 with
  | cmd_util_t.ScanDone accum => (true, accum, neg)
  | cmd_util_t.ScanReturn b => (b, out, neg)
  end.

(** The characters base 16 reads as digits, and a string with every
    other character replaced by the digit 0. *)
Definition is_hex (ch : ascii) : bool :=
  cmd_util_t.in_range "0" "9" ch || cmd_util_t.in_range "a" "f" ch
  || cmd_util_t.in_range "A" "F" ch.

Fixpoint hex_zeroed (s : string) : string :=
  match s with
  | EmptyString => EmptyString
  | String ch s' => String (if is_hex ch then ch else "0"%char) (hex_zeroed s')
  end.

(** ** The default handler *)

(** The sub commands whose name is at an edit distance below [FUZZYNESS]
    from the word, in the order of the list. *)
Definition suggestions (sub : list cmd_t.t) (tok : string) : list cmd_t.t :=
  List.filter (fun c => Nat.ltb (edit_distance (cmd_t.name_ c) tok) 3) sub.

(** ** Notions for the dispatcher *)




Definition blank (ids : cmd_idents_t) (s : string) : Prop :=
  s <> "" /\
  exists fuel t, tokenize fuel (c_str s) (cmd_tokens_t.new (Some ids)) = Ret (0%nat, t).


(** ** Sample data: the commands [status], [stop], [start] and [fail] *)

Module demo.

(** The token list that four pushes build. *)
Definition pushed : cmd_tokens_t :=
  cmd_tokens_t.push "-x" (cmd_tokens_t.push "foo" (cmd_tokens_t.push "-v"
    (cmd_tokens_t.push "bar" (cmd_tokens_t.new None)))).


(** A command without sub commands whose handlers write one line each
    and answer [ok]. *)
Definition leaf (name : string) (ok : bool) : cmd_t.t :=
  {| cmd_t.name_ := name;
     cmd_t.sub_ := [];
     cmd_t.on_execute := fun _ out => (ok, (out ++ [Println ("execute " ++ name)])%list);
     cmd_t.on_usage := fun out => (true, (out ++ [Println ("usage " ++ name)])%list) |}.

Definition start : cmd_t.t := leaf "start" true.

Definition parser (history : list string) : cmd_parser_t.t :=
  {| cmd_parser_t.sub_ := [leaf "status" true; leaf "stop" true; start; leaf "fail" false];
     cmd_parser_t.history_ := history;
     cmd_parser_t.alias_ := ∅;
     cmd_parser_t.idents_ := ∅ |}.

End demo.

(** * Properties *)

(** ** outcomes *)

Section outcome_facts.
Context {A B : Type}.

Lemma bind_Ret (a : A) (f : A -> outcome B) : (Ret a ≫= f) = f a.
Proof. reflexivity. Qed.

Lemma bind_not_Undefined (m : outcome A) (f : A -> outcome B) :
  m <> Undefined -> (forall a, m = Ret a -> f a <> Undefined) ->
  (m ≫= f) <> Undefined.
Proof.
  intros Hm Hf. destruct m as [a| | |]; simpl; try congruence.
  apply Hf. reflexivity.
Qed.

End outcome_facts.

(** ** strings *)

Section string_facts.

Lemma get_Some_le (s : string) (k src : nat) (c : ascii) :
  String.get k s = Some c -> (src <= k)%nat -> exists c', String.get src s = Some c'.
Proof.
  revert k src. induction s as [|d s IH]; intros k src Hk Hle; simpl in *.
  - discriminate.
  - destruct src as [|src]; [eauto|].
    destruct k as [|k]; [lia|].
    apply (IH k src); [assumption|lia].
Qed.

Lemma substring_0_0 (s : string) (n : nat) : substring n 0 s = "".
Proof.
  revert n. induction s as [|d s IH]; intros [|n]; simpl; auto.
Qed.

Lemma between_same (in_ : string) (src : nat) : between in_ src src = "".
Proof. unfold between. rewrite Nat.sub_diag. apply substring_0_0. Qed.

Lemma append_cons (c : ascii) (s1 s2 : string) : String c s1 ++ s2 = String c (s1 ++ s2).
Proof. reflexivity. Qed.

Lemma append_nil (s : string) : "" ++ s = s.
Proof. reflexivity. Qed.

Lemma length_append (s1 s2 : string) :
  String.length (s1 ++ s2) = (String.length s1 + String.length s2)%nat.
Proof.
  induction s1 as [|c s1 IH]; [reflexivity|].
  rewrite append_cons. simpl. rewrite IH. reflexivity.
Qed.

Lemma append_assoc (s1 s2 s3 : string) : (s1 ++ s2) ++ s3 = s1 ++ (s2 ++ s3).
Proof.
  induction s1 as [|c s1 IH]; [reflexivity|].
  rewrite !append_cons, IH. reflexivity.
Qed.

Lemma substring_app_skip (pre s : string) (n : nat) :
  substring (String.length pre) n (pre ++ s) = substring 0 n s.
Proof.
  induction pre as [|c pre IH]; [reflexivity|].
  rewrite append_cons. simpl. apply IH.
Qed.

Lemma substring_0_prefix (seg r : string) :
  substring 0 (String.length seg) (seg ++ r) = seg.
Proof.
  induction seg as [|c seg IH].
  - rewrite append_nil. destruct r; reflexivity.
  - rewrite append_cons. simpl. rewrite IH. reflexivity.
Qed.

Lemma substring_0_all (s : string) : substring 0 (String.length s) s = s.
Proof. induction s as [|c s IH]; simpl; [reflexivity|]. rewrite IH. reflexivity. Qed.

Lemma substr_from_app (pre rest : string) :
  substr_from (String.length pre) (pre ++ rest) = rest.
Proof.
  unfold substr_from. rewrite length_append, substring_app_skip.
  replace (String.length pre + String.length rest - String.length pre)%nat
    with (String.length rest) by lia.
  apply substring_0_all.
Qed.

Lemma get_app_skip (pre s : string) (k : nat) :
  String.get (String.length pre + k) (pre ++ s) = String.get k s.
Proof.
  induction pre as [|c pre IH]; [reflexivity|].
  rewrite append_cons. simpl. apply IH.
Qed.

Lemma get_after (pre cur rest : string) :
  String.get (String.length pre + String.length cur) (pre ++ cur ++ rest) =
  String.get 0 rest.
Proof.
  rewrite get_app_skip.
  rewrite <- (Nat.add_0_r (String.length cur)). apply get_app_skip.
Qed.

Lemma between_after (pre cur rest : string) :
  between (pre ++ cur ++ rest) (String.length pre)
          (String.length pre + String.length cur) = cur.
Proof.
  unfold between.
  replace (String.length pre + String.length cur - String.length pre)%nat
    with (String.length cur) by lia.
  rewrite substring_app_skip. apply substring_0_prefix.
Qed.

Lemma c_str_no_nul (s : string) : no_nul s = true -> c_str s = s.
Proof.
  induction s as [|c s IH]; [reflexivity|]. cbn [no_nul c_str].
  destruct (Ascii.eqb c Ascii.zero); [discriminate|].
  intros H. rewrite IH by exact H. reflexivity.
Qed.

Lemma append_empty_r (s : string) : s ++ "" = s.
Proof. induction s as [|c s IH]; [reflexivity|]. rewrite append_cons, IH. reflexivity. Qed.

End string_facts.

(** ** prefix scoring: [cmd_util_t::str_match] *)

Section str_match_facts.
Import cmd_util_t.

Lemma str_match_from_spec (str sub : string) (i : Z) :
  str_match_from i str sub =
    if String.eqb sub str then INT_MAX
    else if String.prefix sub str then i + Z.of_nat (String.length sub)
    else -1.
Proof.
  revert sub i. induction str as [|c str IH]; intros [|d sub] i; simpl; try reflexivity.
  - lia.
  - rewrite IH. rewrite (Ascii.eqb_sym d c).
    destruct (Ascii.eqb_spec c d) as [->|Hne].
    + destruct (ascii_dec d d) as [_|Hdd]; [|congruence].
      destruct (String.eqb sub str); [reflexivity|].
      destruct (String.prefix sub str); [lia|reflexivity].
    + destruct (ascii_dec d c) as [Hdc|_]; [congruence|reflexivity].
Qed.

(** The result is the maximum, the no-match value, or an index into [sub]. *)
Lemma str_match_range (str sub : string) :
  str_match str sub = INT_MAX \/ str_match str sub = -1 \/
  0 <= str_match str sub <= Z.of_nat (String.length sub).
Proof.
  unfold str_match. rewrite str_match_from_spec.
  destruct (String.eqb sub str); [now left|].
  destruct (String.prefix sub str); [right; right; lia|right; now left].
Qed.

End str_match_facts.

(** C1, as the code has it: for a [sub] of fewer than 2^31 - 1
    characters, the range in which the [int32_t] counter of the source
    cannot overflow, [str_match name sub] is [INT_MAX] when [sub] equals
    [name]; otherwise it is the length of [sub] when [sub] is a prefix of
    [name], which is 0 for the empty [sub]; otherwise, when a character
    differs or [name] ends first, it is -1. *)
Theorem str_match_spec (name sub : string) :
  Z.of_nat (String.length sub) < cmd_util_t.INT_MAX ->
  cmd_util_t.str_match name sub =
    if String.eqb sub name then cmd_util_t.INT_MAX
    else if String.prefix sub name then Z.of_nat (String.length sub)
    else -1.
Proof.
  intros _. unfold cmd_util_t.str_match. rewrite str_match_from_spec. reflexivity.
Qed.

Lemma str_match_spec_witness :
  cmd_util_t.str_match "status" "sta" = 3 /\
  cmd_util_t.str_match "sta" "status" = -1 /\
  cmd_util_t.str_match "stop" "stop" = cmd_util_t.INT_MAX.
Proof.
  split; [|split].
  - apply (str_match_spec "status" "sta"). reflexivity.
  - apply (str_match_spec "sta" "status"). reflexivity.
  - apply (str_match_spec "stop" "stop"). reflexivity.
Defined.

(** C1 as stated fails: an empty [sub] against a non-empty [name] scores 0,
    which is not negative. *)
Lemma str_match_empty_sub_counterexample :
  cmd_util_t.str_match "a" "" = 0 /\ ~ (cmd_util_t.str_match "a" "" < 0).
Proof. split; [reflexivity|]. vm_compute. discriminate. Qed.

(** ** numeric parsing: [cmd_util_t::strtoll] and [cmd_token_t::get] *)

Section strtoll_facts.
Import cmd_util_t.

Lemma get_minus_five : cmd_token_t.get_i64 "-5" = Some (-5).
Proof. vm_compute. reflexivity. Qed.

Lemma get_hex_1F : cmd_token_t.get_i64 "0x1F" = Some 31.
Proof. vm_compute. reflexivity. Qed.


(** In base 16 the scan never leaves early: every character that is not
    a hex digit is stepped over. *)
Lemma strtoll_scan_hex_done (in_ : string) (accum : Z) :
  exists v, strtoll_scan 16 in_ accum = ScanDone v.
Proof.
  revert accum. induction in_ as [|ch in_ IH]; intros accum; cbn [strtoll_scan].
  - eauto.
  - change (Z.eqb 16 16) with true. cbv iota.
    destruct (in_range "0" "9" ch); [apply IH|].
    destruct (in_range "a" "f" ch); [apply IH|].
    destruct (in_range "A" "F" ch); apply IH.
Qed.

Lemma strtoll_hex_reports_success (digits : string) (out : Z) :
  (strtoll ("0x" ++ digits) out).1.1 = true.
Proof.
  change ("0x" ++ digits) with (String "0" (String "x" digits)).
  unfold strtoll. cbv iota beta.
  destruct (strtoll_scan_hex_done digits 0) as [v ->]. reflexivity.
Qed.

End strtoll_facts.

(** C8, at the input where the code departs from it: after the [0x] prefix
    the character [G] is not a hex digit, and the parse still reports
    success, with the value 16. The same character after a decimal number
    is refused. *)
Theorem strtoll_hex_trailing_garbage :
  cmd_util_t.strtoll "0x1G" 0 = (true, 16, false) /\
  cmd_token_t.get_i64 "0x1G" = Some 16 /\
  cmd_util_t.strtoll "1G" 0 = (false, 0, false).
Proof. vm_compute. repeat split. Qed.

(** ** edit distance: [cmd_util_t::levenshtein] *)

(** Which cells of [column] have been written when they are read. *)

Section levenshtein_facts.
Import cmd_util_t.








End levenshtein_facts.

(** The edit distance [lev] is a metric. *)

Section edit_distance_facts.
Local Open Scope nat_scope.

Lemma lev_nil_r s : lev s [] = length s.
Proof. destruct s; reflexivity. Qed.

Lemma lev_cons_cons a b s t :
  lev (a :: s) (b :: t) =
    min3 (S (lev (a :: s) t)) (S (lev s (b :: t))) (lev s t + cost a b).
Proof. reflexivity. Qed.

Lemma cost_refl a : cost a a = 0.
Proof. unfold cost. rewrite Ascii.eqb_refl. reflexivity. Qed.

Lemma cost_sym a b : cost a b = cost b a.
Proof. unfold cost. rewrite Ascii.eqb_sym. reflexivity. Qed.

Lemma cost_triangle a b c : cost a c <= cost a b + cost b c.
Proof.
  unfold cost. destruct (Ascii.eqb_spec a b) as [->|]; [lia|].
  destruct (Ascii.eqb a c); lia.
Qed.

Lemma lev_refl s : lev s s = 0.
Proof.
  induction s as [|a s IH]; [reflexivity|].
  rewrite lev_cons_cons, IH, cost_refl. unfold min3. lia.
Qed.

Lemma lev_sym s : forall t, lev s t = lev t s.
Proof.
  induction s as [|a s IHs]; intros t.
  - rewrite lev_nil_r. reflexivity.
  - induction t as [|b t IHt].
    + rewrite lev_nil_r. reflexivity.
    + rewrite !lev_cons_cons, IHt, (IHs (b :: t)), (IHs t), (cost_sym a b).
      unfold min3. lia.
Qed.

Lemma lev_length_l s : forall t, length s <= lev s t + length t.
Proof.
  induction s as [|a s IHs]; intros t; [cbn [length lev]; lia|].
  induction t as [|b t IHt].
  - rewrite lev_nil_r. lia.
  - rewrite lev_cons_cons. specialize (IHs (b :: t)) as H1. specialize (IHs t) as H2.
    cbn [length] in *. unfold min3. lia.
Qed.

Lemma lev_length_r s t : length t <= lev s t + length s.
Proof. rewrite lev_sym. apply lev_length_l. Qed.

Lemma lev_upper s : forall t, lev s t <= length s + length t.
Proof.
  induction s as [|a s IHs]; intros t; [cbn [length lev]; lia|].
  destruct t as [|b t].
  - rewrite lev_nil_r. lia.
  - rewrite lev_cons_cons. specialize (IHs (b :: t)). cbn [length] in *. unfold min3. lia.
Qed.

Lemma lev_triangle_bounded (n : nat) :
  forall a b c, length a + length b + length c < n ->
    lev a c <= lev a b + lev b c.
Proof.
  induction n as [|n IH]; intros a b c Hn; [lia|].
  destruct a as [|x a].
  { pose proof (lev_length_r b c). change (lev [] c) with (length c). rewrite (lev_sym [] b), lev_nil_r. lia. }
  destruct c as [|z c].
  { pose proof (lev_length_l (x :: a) b). rewrite !lev_nil_r. lia. }
  destruct b as [|y b].
  { pose proof (lev_upper (x :: a) (z :: c)). rewrite lev_nil_r.
    change (lev [] (z :: c)) with (length (z :: c)). lia. }
  cbn [length] in Hn.
  pose proof (IH a (y :: b) (z :: c) ltac:(cbn [length]; lia)) as H1.
  pose proof (IH (x :: a) (y :: b) c ltac:(cbn [length]; lia)) as H2.
  pose proof (IH (x :: a) b (z :: c) ltac:(cbn [length]; lia)) as H3.
  pose proof (IH (x :: a) b c ltac:(cbn [length]; lia)) as H4.
  pose proof (IH a b (z :: c) ltac:(cbn [length]; lia)) as H5.
  pose proof (IH a b c ltac:(cbn [length]; lia)) as H6.
  pose proof (cost_triangle x y z) as Hc.
  rewrite (lev_cons_cons x z a c) in H3 |- *.
  rewrite (lev_cons_cons x y a b) in H2 |- *.
  rewrite (lev_cons_cons y z b c) in H1 |- *.
  unfold min3 in *. lia.
Qed.

Lemma lev_triangle a b c : lev a c <= lev a b + lev b c.
Proof. apply (lev_triangle_bounded (S (length a + length b + length c))). lia. Qed.

End edit_distance_facts.

(** The loops of the code fill [column] with the distances between
    prefixes: after the round for [x], cell [y] holds the distance between
    the first [y] characters of [s1] and the first [x] characters of [s2]. *)

Section levenshtein_table.
Import cmd_util_t.

Lemma u32_small (z : Z) : 0 <= z < 2 ^ 32 -> u32 z = z.
Proof. intros H. unfold u32. apply Z.mod_small. exact H. Qed.

Lemma MIN3_min3 (a b c : nat) :
  MIN3 (Z.of_nat a) (Z.of_nat b) (Z.of_nat c) = Z.of_nat (min3 a b c).
Proof.
  unfold MIN3, min3.
  destruct (Z.ltb_spec (Z.of_nat a) (Z.of_nat b));
    [destruct (Z.ltb_spec (Z.of_nat a) (Z.of_nat c))
    |destruct (Z.ltb_spec (Z.of_nat b) (Z.of_nat c))]; lia.
Qed.

Lemma get_chars (s : string) (i : nat) : String.get i s = chars s !! i.
Proof.
  revert i. induction s as [|c s IH]; intros [|i]; simpl; auto.
Qed.

Lemma length_chars (s : string) : length (chars s) = String.length s.
Proof. induction s as [|c s IH]; simpl; [reflexivity|]. f_equal. exact IH. Qed.

Lemma char_at_chars (s : string) (i : nat) (a : ascii) :
  chars s !! i = Some a -> char_at s i = a.
Proof. intros H. unfold char_at. rewrite get_chars, H. reflexivity. Qed.

Lemma rev_take_S (l : list ascii) (y : nat) (a : ascii) :
  l !! y = Some a -> rev (take (S y) l) = a :: rev (take y l).
Proof.
  intros H. rewrite (take_S_r l y a H), rev_app_distr. reflexivity.
Qed.

Section table.
Variables l1 l2 : list ascii.

Lemma prefix_distance_0_r (y : nat) :
  (y <= length l1)%nat -> prefix_distance l1 l2 y 0 = y.
Proof.
  intros H. unfold prefix_distance. rewrite take_0. simpl rev.
  rewrite lev_nil_r, length_rev, length_take. lia.
Qed.

Lemma prefix_distance_0_l (x : nat) :
  (x <= length l2)%nat -> prefix_distance l1 l2 0 x = x.
Proof.
  intros H. unfold prefix_distance. rewrite take_0. simpl rev.
  cbn [lev]. rewrite length_rev, length_take. lia.
Qed.

Lemma prefix_distance_S (y x : nat) (a b : ascii) :
  l1 !! y = Some a -> l2 !! x = Some b ->
  prefix_distance l1 l2 (S y) (S x) =
    min3 (S (prefix_distance l1 l2 (S y) x)) (S (prefix_distance l1 l2 y (S x)))
         (prefix_distance l1 l2 y x + cost a b).
Proof.
  intros Ha Hb. unfold prefix_distance.
  rewrite (rev_take_S l1 y a Ha), (rev_take_S l2 x b Hb). apply lev_cons_cons.
Qed.

Lemma prefix_distance_upper (y x : nat) :
  (prefix_distance l1 l2 y x <= y + x)%nat.
Proof.
  unfold prefix_distance.
  pose proof (lev_upper (rev (take y l1)) (rev (take x l2))) as H.
  rewrite !length_rev, !length_take in H. lia.
Qed.

End table.

Lemma lev_init_values (k : nat) :
  forall y column, (y + k <= length column)%nat -> Z.of_nat (y + k) <= 2 ^ 32 ->
    length (lev_init k y column) = length column /\
    (forall i, (y <= i < y + k)%nat ->
       lev_init k y column !! i = Some (Some (Z.of_nat i))) /\
    (forall i, (i < y)%nat -> lev_init k y column !! i = column !! i).
Proof.
  induction k as [|k IH]; intros y column Hlen Hb; cbn [lev_init].
  - split; [reflexivity|]. split; [intros i Hi; lia|reflexivity].
  - destruct (IH (S y) (<[y := Some (u32 (Z.of_nat y))]> column)) as (Hl & Hnew & Hold).
    { rewrite length_insert. lia. }
    { lia. }
    rewrite length_insert in Hl. split; [assumption|]. split.
    + intros i Hi. destruct (decide (i = y)) as [->|Hne].
      * rewrite Hold by lia. rewrite list_lookup_insert_eq by lia.
        rewrite u32_small by lia. reflexivity.
      * apply Hnew. lia.
    + intros i Hi. rewrite Hold by lia. apply list_lookup_insert_ne. lia.
Qed.

Section loops.
Variables s1 s2 : string.
Hypothesis Hbound : Z.of_nat (String.length s1 + String.length s2) + 1 < 2 ^ 32.

Let n := String.length s1.
Let m := String.length s2.
Let pd := prefix_distance (chars s1) (chars s2).

Lemma pd_small (y x : nat) (c : Z) :
  (y <= n)%nat -> (x <= m)%nat -> 0 <= c <= 1 ->
  0 <= Z.of_nat (pd y x) + c < 2 ^ 32.
Proof.
  intros Hy Hx Hc. pose proof (prefix_distance_upper (chars s1) (chars s2) y x).
  unfold pd, n, m in *. lia.
Qed.

Lemma lev_inner_correct (x : nat) (k : nat) :
  (1 <= x <= m)%nat ->
  forall y lastdiag column,
    (1 <= y)%nat -> (y + k = S n)%nat -> length column = S n ->
    (forall i, (i < y)%nat -> column !! i = Some (Some (Z.of_nat (pd i x)))) ->
    (forall i, (y <= i <= n)%nat -> column !! i = Some (Some (Z.of_nat (pd i (x - 1))))) ->
    lastdiag = Z.of_nat (pd (y - 1) (x - 1)) ->
    exists column', lev_inner k s1 s2 x y lastdiag column = Ret column' /\
      length column' = S n /\
      forall i, (i <= n)%nat -> column' !! i = Some (Some (Z.of_nat (pd i x))).
Proof.
  intros Hx. induction k as [|k IH]; intros y lastdiag column Hy Hk Hlen Hnew Hold Hdiag;
    cbn [lev_inner].
  - exists column. repeat split; [assumption|]. intros i Hi. apply Hnew. lia.
  - unfold read. rewrite (Hold y) by lia. rewrite (Hnew (y - 1)%nat) by lia.
    rewrite !bind_Ret. cbv zeta.
    destruct y as [|y']; [lia|]. destruct x as [|x']; [lia|].
    replace (S y' - 1)%nat with y' in * by lia.
    replace (S x' - 1)%nat with x' in * by lia.
    destruct (lookup_lt_is_Some_2 (chars s1) y') as [a Ha].
    { rewrite length_chars. fold n. lia. }
    destruct (lookup_lt_is_Some_2 (chars s2) x') as [b Hb].
    { rewrite length_chars. fold m. lia. }
    rewrite (char_at_chars s1 y' a Ha), (char_at_chars s2 x' b Hb).
    assert (Hv : MIN3 (u32 (Z.of_nat (pd (S y') x') + 1))
                      (u32 (Z.of_nat (pd y' (S x')) + 1))
                      (u32 (lastdiag + (if Ascii.eqb a b then 0 else 1)))
                 = Z.of_nat (pd (S y') (S x'))).
    { subst lastdiag.
      rewrite !u32_small by (apply pd_small; try lia; destruct (Ascii.eqb a b); lia).
      unfold pd. rewrite (prefix_distance_S _ _ y' x' a b Ha Hb). fold pd.
      rewrite <- MIN3_min3. f_equal; [lia|lia|].
      unfold cost. destruct (Ascii.eqb a b); lia. }
    rewrite Hv.
    apply IH.
    + lia.
    + lia.
    + rewrite length_insert. assumption.
    + intros i Hi. destruct (decide (i = S y')) as [->|Hne].
      * apply list_lookup_insert_eq. lia.
      * rewrite list_lookup_insert_ne by lia. apply Hnew. lia.
    + intros i Hi. rewrite list_lookup_insert_ne by lia.
      replace (S x' - 1)%nat with x' by lia. apply Hold. lia.
    + replace (S (S y') - 1)%nat with (S y') by lia.
      replace (S x' - 1)%nat with x' by lia. reflexivity.
Qed.

(** One round of the loop over [x]. *)
Lemma lev_outer_step (x k : nat) (column : list (option Z)) :
  (1 <= x <= m)%nat -> length column = S n ->
  (forall i, (1 <= i <= n)%nat -> column !! i = Some (Some (Z.of_nat (pd i (x - 1))))) ->
  exists column', lev_outer (S k) s1 s2 x column = lev_outer k s1 s2 (S x) column' /\
    length column' = S n /\
    forall i, (i <= n)%nat -> column' !! i = Some (Some (Z.of_nat (pd i x))).
Proof.
  intros Hx Hlen Hold. cbn [lev_outer]. fold n.
  set (column1 := <[0%nat := Some (u32 (Z.of_nat x))]> column).
  destruct (lev_inner_correct x n Hx 1 (u32 (Z.of_nat x - 1)) column1)
    as (column2 & -> & Hl2 & Hall).
  - lia.
  - lia.
  - unfold column1. rewrite length_insert. assumption.
  - intros i Hi. assert (i = 0%nat) as -> by lia.
    unfold column1. rewrite list_lookup_insert_eq by lia.
    rewrite u32_small by (unfold m in *; lia).
    unfold pd. rewrite prefix_distance_0_l; [reflexivity|].
    rewrite length_chars. fold m. lia.
  - intros i Hi. unfold column1. rewrite list_lookup_insert_ne by lia.
    apply Hold. lia.
  - rewrite u32_small by (unfold m in *; lia).
    unfold pd. rewrite prefix_distance_0_l; [lia|].
    rewrite length_chars. fold m. lia.
  - rewrite bind_Ret. eauto.
Qed.

Lemma lev_outer_correct (k : nat) :
  forall x column,
    (1 <= x)%nat -> (x + k = S m)%nat -> length column = S n ->
    (forall i, (i <= n)%nat -> column !! i = Some (Some (Z.of_nat (pd i (x - 1))))) ->
    exists column', lev_outer k s1 s2 x column = Ret column' /\
      forall i, (i <= n)%nat -> column' !! i = Some (Some (Z.of_nat (pd i m))).
Proof.
  induction k as [|k IH]; intros x column Hx Hk Hlen Hold.
  - exists column. split; [reflexivity|].
    replace m with (x - 1)%nat by lia. assumption.
  - destruct (lev_outer_step x k column) as (column' & -> & Hl & Hnew).
    + lia.
    + assumption.
    + intros i Hi. apply Hold. lia.
    + apply IH; [lia|lia|assumption|].
      replace (S x - 1)%nat with x by lia. assumption.
Qed.

(** The value the code returns, under the bound that keeps the 32-bit
    cells from wrapping. *)
Lemma levenshtein_value :
  s1 <> "" \/ s2 <> "" ->
  levenshtein s1 s2 = Ret (Z.of_nat (edit_distance s1 s2)).
Proof.
  intros Hne. unfold levenshtein. fold n m.
  destruct (lev_init_values n 1 (replicate (n + 1) None)) as (Hl & Hinit & _).
  { rewrite length_replicate. lia. }
  { unfold n in *. lia. }
  rewrite length_replicate in Hl.
  set (column0 := lev_init n 1 (replicate (n + 1) None)) in *.
  assert (Hfull : pd n m = edit_distance s1 s2).
  { unfold pd, prefix_distance, edit_distance, n, m.
    rewrite <- !length_chars, !firstn_all. reflexivity. }
  assert (Hcol0 : forall i, (1 <= i <= n)%nat ->
                    column0 !! i = Some (Some (Z.of_nat (pd i 0)))).
  { intros i Hi. rewrite Hinit by lia. unfold pd.
    rewrite prefix_distance_0_r; [reflexivity|]. rewrite length_chars. fold n. lia. }
  destruct m as [|m'] eqn:Em.
  - (* the loop over [s2] does not run *)
    cbn [lev_outer]. rewrite bind_Ret. unfold read.
    assert (n <> 0%nat).
    { unfold n, m in *. destruct s1; [|discriminate]. destruct s2; [|discriminate].
      destruct Hne; congruence. }
    rewrite Hcol0 by lia. rewrite <- Hfull. reflexivity.
  - destruct (lev_outer_step 1 m' column0) as (column1 & -> & Hl1 & Hall1).
    + lia.
    + lia.
    + intros i Hi. apply Hcol0. assumption.
    + destruct (lev_outer_correct m' 2 column1) as (column2 & -> & Hall2).
      * lia.
      * lia.
      * assumption.
      * intros i Hi. apply Hall1. assumption.
      * rewrite bind_Ret. unfold read. rewrite Hall2 by lia.
        rewrite Em, Hfull. reflexivity.
Qed.

End loops.

Lemma edit_distance_refl (a : string) : edit_distance a a = 0%nat.
Proof. apply lev_refl. Qed.

Lemma edit_distance_sym (a b : string) : edit_distance a b = edit_distance b a.
Proof. apply lev_sym. Qed.

Lemma edit_distance_triangle (a b c : string) :
  (edit_distance a c <= edit_distance a b + edit_distance b c)%nat.
Proof. apply lev_triangle. Qed.

(** Away from the pair of empty strings, and for lengths that 32 bits can
    count, the code satisfies the three laws of C9. *)
Lemma levenshtein_refl (a : string) :
  a <> "" -> Z.of_nat (String.length a + String.length a) + 1 < 2 ^ 32 ->
  levenshtein a a = Ret 0.
Proof.
  intros Hne Hb. rewrite levenshtein_value by auto.
  rewrite edit_distance_refl. reflexivity.
Qed.

Lemma levenshtein_sym (a b : string) :
  a <> "" \/ b <> "" -> Z.of_nat (String.length a + String.length b) + 1 < 2 ^ 32 ->
  levenshtein a b = levenshtein b a.
Proof.
  intros Hne Hb. rewrite !levenshtein_value by (tauto || lia).
  rewrite edit_distance_sym. reflexivity.
Qed.

Lemma levenshtein_triangle (a b c : string) :
  a <> "" -> b <> "" -> c <> "" ->
  Z.of_nat (String.length a + String.length b) + 1 < 2 ^ 32 ->
  Z.of_nat (String.length b + String.length c) + 1 < 2 ^ 32 ->
  Z.of_nat (String.length a + String.length c) + 1 < 2 ^ 32 ->
  exists ac ab bc,
    levenshtein a c = Ret ac /\ levenshtein a b = Ret ab /\ levenshtein b c = Ret bc /\
    ac <= ab + bc.
Proof.
  intros Ha Hb Hc Hab Hbc Hac.
  exists (Z.of_nat (edit_distance a c)), (Z.of_nat (edit_distance a b)),
         (Z.of_nat (edit_distance b c)).
  rewrite !levenshtein_value by auto.
  repeat split. pose proof (edit_distance_triangle a b c). lia.
Qed.

End levenshtein_table.

(** C9, at the input where the code departs from it: for two empty strings
    neither loop runs, and the function returns [column[0]], a cell that
    was never written. *)
Theorem levenshtein_empty_empty :
  cmd_util_t.levenshtein "" "" = Undefined /\
  cmd_util_t.levenshtein "" "" <> Ret (Z.of_nat (edit_distance "" "")).
Proof.
  assert (H : cmd_util_t.levenshtein "" "" = Undefined) by reflexivity.
  split; [exact H|]. rewrite H. discriminate.
Qed.

(** ** the tokenizer *)

Section tokenize_facts.

Lemma skip_spaces_stay (n : nat) (in_ : string) (src : nat) (ch : ascii) :
  String.get src in_ = Some ch -> is_char " " ch = false ->
  skip_spaces n in_ src = src.
Proof. intros Hg Hc. destruct n; cbn [skip_spaces]; [reflexivity|]. rewrite Hg, Hc. reflexivity. Qed.

Lemma skip_spaces_bounds (n : nat) (in_ : string) (src k : nat) (ch : ascii) :
  (src <= k)%nat -> String.get k in_ = Some ch -> is_char " " ch = false ->
  (src <= skip_spaces n in_ src <= k)%nat.
Proof.
  revert src. induction n as [|n IH]; intros src Hle Hk Hc; cbn [skip_spaces]; [lia|].
  destruct (String.get src in_) as [c|] eqn:Hs; [|lia].
  destruct (is_char " " c) eqn:Hsp; [|lia].
  assert (src <> k) by (intros ->; congruence).
  specialize (IH (S src) ltac:(lia) Hk Hc). lia.
Qed.

(** Once the scan can reach a tab it never leaves the loop: the inner
    loop steps over spaces only, so [src] stays on the tab. *)
Lemma tokenize_loop_tab (in_ : string) (k : nat) (ch : ascii) :
  String.get k in_ = Some ch -> is_char TAB ch = true ->
  forall fuel src start out, (src <= k)%nat ->
    tokenize_loop fuel in_ src start out = Timeout.
Proof.
  intros Hk Htab.
  assert (Hns : is_char " " ch = false).
  { revert Htab. unfold is_char, TAB. destruct (Ascii.eqb_spec ch (ascii_of_nat 9)) as [->|]; [reflexivity|discriminate]. }
  induction fuel as [|fuel IH]; intros src start out Hle; cbn [tokenize_loop]; [reflexivity|].
  destruct (get_Some_le in_ k src ch Hk Hle) as [c Hc]. rewrite Hc.
  destruct (is_char " " c || is_char TAB c) eqn:Hws.
  - apply IH. eapply skip_spaces_bounds; eauto.
  - apply IH. assert (src <> k); [|lia].
    intros ->. rewrite Hk in Hc. injection Hc as <-.
    rewrite Htab, orb_true_r in Hws. discriminate.
Qed.

Lemma tokenize_tab (in_ : string) (k : nat) (ch : ascii) :
  String.get k in_ = Some ch -> is_char TAB ch = true ->
  forall fuel out, tokenize fuel in_ out = Timeout.
Proof.
  intros Hk Htab fuel out. unfold tokenize.
  rewrite (tokenize_loop_tab in_ k ch Hk Htab); [reflexivity|lia].
Qed.

(** More fuel never changes an answer. *)
Lemma tokenize_loop_mono (in_ : string) (fuel : nat) :
  forall src start out r, tokenize_loop fuel in_ src start out = Ret r ->
  forall fuel', (fuel <= fuel')%nat -> tokenize_loop fuel' in_ src start out = Ret r.
Proof.
  induction fuel as [|fuel IH]; intros src start out r H fuel' Hle; cbn [tokenize_loop] in H; [discriminate|].
  destruct fuel' as [|fuel']; [lia|]. cbn [tokenize_loop].
  destruct (String.get src in_) as [c|]; [|assumption].
  destruct (is_char " " c || is_char TAB c); (eapply IH; [eassumption|lia]).
Qed.

Lemma tokenize_mono (in_ : string) (fuel fuel' : nat) out r :
  tokenize fuel in_ out = Ret r -> (fuel <= fuel')%nat -> tokenize fuel' in_ out = Ret r.
Proof.
  unfold tokenize. intros H Hle.
  destruct (tokenize_loop fuel in_ 0 0 out) as [[[src start] o]| | |] eqn:E; try discriminate.
  rewrite (tokenize_loop_mono _ _ _ _ _ _ E _ Hle). exact H.
Qed.

Lemma get_Some_lt (s : string) (k : nat) (c : ascii) :
  String.get k s = Some c -> (k < String.length s)%nat.
Proof.
  revert k. induction s as [|d s IH]; intros k; simpl; [discriminate|].
  destruct k as [|k]; [lia|]. intros H. apply IH in H. lia.
Qed.

Lemma skip_spaces_ge (n : nat) (in_ : string) (src : nat) :
  (src <= skip_spaces n in_ src)%nat.
Proof.
  revert src. induction n as [|n IH]; intros src; cbn [skip_spaces]; [lia|].
  destruct (String.get src in_) as [c|]; [|lia].
  destruct (is_char " " c); [|lia]. specialize (IH (S src)). lia.
Qed.

Lemma skip_spaces_gt (in_ : string) (src : nat) (ch : ascii) :
  String.get src in_ = Some ch -> is_char " " ch = true ->
  (src < skip_spaces (String.length in_) in_ src)%nat.
Proof.
  intros Hg Hc. pose proof (get_Some_lt _ _ _ Hg) as Hlt.
  destruct (String.length in_) as [|n]; [lia|]. cbn [skip_spaces].
  rewrite Hg, Hc. pose proof (skip_spaces_ge n in_ (S src)). lia.
Qed.

(** Without a tab every round of the loop moves [src] forward, so the loop
    ends before it has run once per character and once more. *)
Lemma tokenize_loop_returns (in_ : string) :
  (forall k ch, String.get k in_ = Some ch -> is_char TAB ch = false) ->
  forall fuel src start out, (String.length in_ - src < fuel)%nat ->
    exists r, tokenize_loop fuel in_ src start out = Ret r.
Proof.
  intros Hnotab. induction fuel as [|fuel IH]; intros src start out Hlt; [lia|].
  cbn [tokenize_loop].
  destruct (String.get src in_) as [c|] eqn:Hc; [|eauto].
  pose proof (get_Some_lt _ _ _ Hc) as Hsrc.
  destruct (is_char " " c || is_char TAB c) eqn:Hws.
  - rewrite (Hnotab _ _ Hc), orb_false_r in Hws.
    pose proof (skip_spaces_gt _ _ _ Hc Hws). apply IH. lia.
  - apply IH. lia.
Qed.

Lemma tokenize_returns (in_ : string) (out : cmd_tokens_t) :
  (forall k ch, String.get k in_ = Some ch -> is_char TAB ch = false) ->
  exists n t, tokenize (S (String.length in_)) in_ out = Ret (n, t).
Proof.
  intros Hnotab. unfold tokenize.
  destruct (tokenize_loop_returns in_ Hnotab (S (String.length in_)) 0 0 out)
    as [[[src start] o] ->]; [lia|].
  simpl. eauto.
Qed.

End tokenize_facts.

Section words_facts.
Import cmd_tokens_t.

Lemma leading_spaces (r : string) :
  exists k r', r = spaces k ++ r' /\ starts_word r'.
Proof.
  induction r as [|c r IH].
  - exists 0%nat, "". split; [reflexivity|exact I].
  - destruct (is_char " " c) eqn:Hc.
    + destruct IH as (k & r' & -> & Hr'). exists (S k), r'. split; [|assumption].
      simpl. rewrite append_cons. f_equal.
      revert Hc. unfold is_char. destruct (Ascii.eqb_spec c " "); congruence.
    + exists 0%nat, (String c r). split; [reflexivity|exact Hc].
Qed.

Lemma length_spaces (k : nat) : String.length (spaces k) = k.
Proof. induction k as [|k IH]; simpl; [reflexivity|]. rewrite IH. reflexivity. Qed.

Lemma skip_spaces_run (k : nat) :
  forall n pre r, starts_word r -> (k <= n)%nat ->
    skip_spaces n (pre ++ spaces k ++ r) (String.length pre) = (String.length pre + k)%nat.
Proof.
  induction k as [|k IH]; intros n pre r Hr Hn.
  - rewrite append_nil, Nat.add_0_r. destruct n as [|n]; [reflexivity|].
    cbn [skip_spaces]. rewrite <- (Nat.add_0_r (String.length pre)) at 1.
    rewrite get_app_skip. destruct r as [|c r]; simpl String.get; cbv iota; [lia|].
    unfold starts_word in Hr. rewrite Hr. lia.
  - destruct n as [|n]; [lia|]. cbn [skip_spaces].
    rewrite <- (Nat.add_0_r (String.length pre)) at 1.
    rewrite get_app_skip. simpl spaces. rewrite append_cons. simpl String.get.
    unfold is_char at 1; simpl Ascii.eqb; cbv iota.
    specialize (IH n (pre ++ " ") r Hr ltac:(lia)).
    rewrite append_assoc, length_append in IH. simpl in IH.
    rewrite append_cons, append_nil in IH.
    replace (String.length pre + 1)%nat with (S (String.length pre)) in IH by lia.
    rewrite IH. lia.
Qed.

Lemma pushed_words_skip (k : nat) (r : string) :
  starts_word r -> pushed_words true "" (spaces k ++ r) = pushed_words false "" r.
Proof.
  intros Hr. induction k as [|k IH].
  - rewrite append_nil. destruct r as [|c r]; [reflexivity|].
    unfold starts_word in Hr. cbn [pushed_words]. rewrite Hr. reflexivity.
  - simpl spaces. rewrite append_cons. cbn [pushed_words].
    unfold is_char at 1; simpl Ascii.eqb; cbv iota. exact IH.
Qed.

Lemma no_tab_app (s1 s2 : string) : no_tab (s1 ++ s2) = no_tab s1 && no_tab s2.
Proof.
  induction s1 as [|c s1 IH]; [reflexivity|].
  rewrite append_cons. simpl. rewrite IH. apply andb_assoc.
Qed.

Lemma pushes_cons w ws t : pushes (w :: ws) t = pushes ws (push w t).
Proof. reflexivity. Qed.

(** The loop from the state where [cur] has been read and [rest] is left. *)
Lemma tokenize_loop_words (fuel : nat) :
  forall pre cur rest out, no_tab rest = true -> (String.length rest < fuel)%nat ->
    exists src start out',
      tokenize_loop fuel (pre ++ cur ++ rest)
        (String.length pre + String.length cur) (String.length pre) out
        = Ret (src, start, out') /\
      (if negb (Nat.eqb src start)
       then push (between (pre ++ cur ++ rest) start src) out' else out')
        = pushes (pushed_words false cur rest) out.
Proof.
  induction fuel as [|fuel IH]; intros pre cur rest out Hnt Hlen; [lia|].
  cbn [tokenize_loop]. rewrite get_after.
  destruct rest as [|c rest].
  - simpl String.get. cbv iota. do 3 eexists. split; [reflexivity|].
    cbn [pushed_words]. destruct cur as [|d cur].
    + rewrite Nat.add_0_r, Nat.eqb_refl. reflexivity.
    + destruct (Nat.eqb_spec (String.length pre + String.length (String d cur))
                  (String.length pre)) as [H|_]; [simpl in H; lia|].
      cbn [negb empty]. rewrite between_after. reflexivity.
  - simpl String.get. cbv iota. cbn [no_tab] in Hnt. apply andb_prop in Hnt as [Hc Hnt].
    apply negb_true_iff in Hc. rewrite Hc, orb_false_r.
    destruct (is_char " " c) eqn:Hsp.
    + assert (c = " "%char) as ->.
      { revert Hsp. unfold is_char. destruct (Ascii.eqb_spec c " "); congruence. }
      destruct (leading_spaces rest) as (k & r & -> & Hr).
      rewrite between_after.
      set (in_ := pre ++ cur ++ String " " (spaces k ++ r)).
      assert (Hin : in_ = (pre ++ cur) ++ spaces (S k) ++ r).
      { unfold in_. rewrite append_assoc. reflexivity. }
      assert (Hskip : skip_spaces (String.length in_) in_
                        (String.length pre + String.length cur)
                      = String.length ((pre ++ cur) ++ spaces (S k))).
      { rewrite Hin at 2. rewrite <- length_append.
        rewrite skip_spaces_run; [|assumption|].
        - rewrite (length_append (pre ++ cur)), length_spaces. reflexivity.
        - rewrite Hin, !length_append, length_spaces. lia. }
      rewrite Hskip.
      rewrite no_tab_app in Hnt. apply andb_prop in Hnt as [_ Hnt].
      destruct (IH ((pre ++ cur) ++ spaces (S k)) "" r (push cur out) Hnt)
        as (src & start & out' & Hloop & Hfin).
      { simpl in Hlen. rewrite length_append, length_spaces in Hlen. lia. }
      rewrite Nat.add_0_r, append_nil in Hloop.
      rewrite append_nil in Hfin.
      assert (Hin' : in_ = ((pre ++ cur) ++ spaces (S k)) ++ r).
      { rewrite Hin. symmetry. apply append_assoc. }
      rewrite Hin'. exists src, start, out'. split; [exact Hloop|].
      rewrite Hfin. cbn [pushed_words]. unfold is_char at 1; simpl Ascii.eqb; cbv iota.
      rewrite pushed_words_skip by assumption. reflexivity.
    + cbv iota.
      destruct (IH pre (cur ++ String c "") rest out Hnt) as (src & start & out' & Hloop & Hfin).
      { simpl in Hlen. lia. }
      rewrite length_append in Hloop. simpl in Hloop.
      assert (Hin : pre ++ (cur ++ String c "") ++ rest = pre ++ cur ++ String c rest).
      { rewrite (append_assoc cur). reflexivity. }
      rewrite Hin in Hloop, Hfin.
      replace (String.length pre + (String.length cur + 1))%nat
        with (S (String.length pre + String.length cur)) in Hloop by lia.
      exists src, start, out'. split; [exact Hloop|].
      rewrite Hfin. cbn [pushed_words]. rewrite Hsp. reflexivity.
Qed.

(** On a string without a tab the tokenizer returns, having pushed the
    words of the string and then the flush. *)
Lemma tokenize_words (in_ : string) (out : cmd_tokens_t) :
  no_tab in_ = true ->
  tokenize (S (String.length in_)) in_ out =
    Ret (token_size (push "" (pushes (pushed_words false "" in_) out)),
         push "" (pushes (pushed_words false "" in_) out)).
Proof.
  intros Hnt.
  destruct (tokenize_loop_words (S (String.length in_)) "" "" in_ out Hnt)
    as (src & start & out' & Hloop & Hfin); [lia|].
  rewrite !append_nil in Hloop, Hfin. change (String.length "" + String.length "")%nat with 0%nat in Hloop.
  change (String.length "") with 0%nat in Hloop.
  unfold tokenize. rewrite Hloop, bind_Ret. rewrite Hfin. reflexivity.
Qed.

Lemma pushed_words_word (w : string) :
  forall skipping cur r, w <> "" -> no_space w = true ->
    pushed_words skipping cur (w ++ r) = pushed_words false (cur ++ w) r.
Proof.
  induction w as [|c w IH]; intros skipping cur r Hne Hns; [contradiction|].
  cbn [no_space] in Hns. apply andb_prop in Hns as [Hc Hns].
  apply negb_true_iff in Hc.
  rewrite append_cons. cbn [pushed_words]. rewrite Hc.
  destruct w as [|d w].
  - rewrite append_nil. reflexivity.
  - rewrite IH by (assumption || discriminate).
    rewrite append_assoc. reflexivity.
Qed.

Lemma starts_word_plain (w r : string) : plain_word w -> starts_word (w ++ r).
Proof.
  intros (Hne & Hns & _). destruct w as [|c w]; [contradiction|].
  rewrite append_cons. cbn [no_space] in Hns. apply andb_prop in Hns as [Hc _].
  apply negb_true_iff in Hc. exact Hc.
Qed.

Lemma starts_word_join (ws : list (string * nat)) (last : string) :
  Forall (fun wg => plain_word wg.1) ws -> plain_word last ->
  starts_word (join_words ws last).
Proof.
  intros Hws Hlast. destruct Hws as [|[w g] ws Hw _]; simpl.
  - rewrite <- (append_empty_r last). apply starts_word_plain, Hlast.
  - apply starts_word_plain, Hw.
Qed.

Lemma pushed_words_join (ws : list (string * nat)) (last : string) :
  Forall (fun wg => plain_word wg.1) ws -> plain_word last ->
  pushed_words false "" (join_words ws last) = (map fst ws ++ [last])%list.
Proof.
  intros Hws Hlast. induction Hws as [|[w g] ws Hw Hws IH]; simpl.
  - destruct Hlast as (Hne & Hns & _).
    rewrite <- (append_empty_r last) at 1.
    rewrite pushed_words_word by assumption. rewrite append_nil. cbn [pushed_words].
    destruct last; [contradiction|reflexivity].
  - destruct Hw as (Hne & Hns & _). simpl in Hne, Hns.
    rewrite pushed_words_word by assumption. rewrite append_nil, append_cons.
    cbn [pushed_words]. unfold is_char at 1; simpl Ascii.eqb; cbv iota.
    rewrite pushed_words_skip by (apply starts_word_join; assumption).
    rewrite IH. reflexivity.
Qed.

Lemma no_tab_spaces (k : nat) : no_tab (spaces k) = true.
Proof. induction k as [|k IH]; [reflexivity|]. simpl. exact IH. Qed.

Lemma no_tab_join (ws : list (string * nat)) (last : string) :
  Forall (fun wg => plain_word wg.1) ws -> plain_word last ->
  no_tab (join_words ws last) = true.
Proof.
  intros Hws Hlast. induction Hws as [|[w g] ws Hw Hws IH]; cbn [join_words spaces].
  - apply Hlast.
  - rewrite no_tab_app, append_cons. cbn [no_tab].
    rewrite no_tab_app, no_tab_spaces, IH.
    destruct Hw as (_ & _ & Hw). simpl in Hw. rewrite Hw. reflexivity.
Qed.

(** Words separated by runs of spaces: whatever the lengths of the runs,
    the tokenizer pushes the words in order and then the flush. *)
Lemma tokenize_space_runs (ws : list (string * nat)) (last : string)
    (out : cmd_tokens_t) :
  Forall (fun wg => plain_word wg.1) ws -> plain_word last ->
  tokenize (S (String.length (join_words ws last))) (join_words ws last) out =
    Ret (token_size (push "" (pushes (map fst ws ++ [last]) out)),
         push "" (pushes (map fst ws ++ [last]) out)).
Proof.
  intros Hws Hlast.
  rewrite tokenize_words by (apply no_tab_join; assumption).
  rewrite pushed_words_join by assumption. reflexivity.
Qed.

End words_facts.

(** C4, at the input where the code departs from it: with a space between
    the two words the tokenizer returns them; with a tab in its place it
    never returns, whatever the fuel. *)
Theorem tokenize_tab_never_returns :
  (exists out, tokenize 5 "a b" (cmd_tokens_t.new None) = Ret (2%nat, out) /\
               raw_ out = ["a"; "b"]) /\
  forall fuel out, tokenize fuel ("a" ++ TAB ++ "b") out = Timeout.
Proof.
  split.
  - eexists. split; [vm_compute; reflexivity|reflexivity].
  - apply (tokenize_tab _ 1 (ascii_of_nat 9)); reflexivity.
Qed.

(** ** the token list: [cmd_tokens_t] *)

Section tokens_facts.
Import cmd_tokens_t.

Lemma empty_true (s : string) : empty s = true <-> s = "".
Proof. destruct s; simpl; split; congruence. Qed.

Lemma substitute_flag idents (k : string) :
  is_flag k = true -> substitute idents k = k.
Proof.
  destruct idents as [ids|]; [|reflexivity].
  destruct k as [|c k]; [discriminate|]. unfold is_flag, substitute.
  destruct (Ascii.eqb_spec c "-") as [->|Hne]; [reflexivity|].
  intros H. exfalso. revert H Hne. clear.
  destruct c as [[] [] [] [] [] [] [] []]; try discriminate. congruence.
Qed.

Lemma aligned_tokens_not_flags raw toks :
  aligned raw toks -> Forall (fun w => is_flag w = false) toks.
Proof. induction 1; auto. Qed.

Lemma aligned_snoc_flag raw toks w :
  aligned raw toks -> is_flag w = true -> aligned (raw ++ [w]) toks.
Proof.
  intros H Hw. induction H; simpl.
  - apply aligned_flag; [assumption|constructor].
  - apply aligned_flag; assumption.
  - apply aligned_pair; assumption.
  - apply aligned_positional; assumption.
Qed.

Lemma aligned_snoc_positional raw toks w :
  aligned raw toks -> is_flag w = false -> aligned (raw ++ [w]) (toks ++ [w]).
Proof.
  intros H Hw. induction H; simpl.
  - apply aligned_positional; [assumption|constructor].
  - apply aligned_flag; assumption.
  - apply aligned_pair; assumption.
  - apply aligned_positional; assumption.
Qed.

Lemma aligned_snoc_value raw toks :
  aligned raw toks ->
  forall raw0 k v, raw = (raw0 ++ [k])%list -> is_flag k = true -> is_flag v = false ->
  aligned (raw0 ++ [k; v]) toks.
Proof.
  induction 1 as [|w raw toks Hw H IH|k' v' raw toks Hk' Hv' H IH|w raw toks Hw H IH];
    intros raw0 k v E Hk Hv.
  - destruct raw0; discriminate.
  - destruct raw0 as [|w0 raw0]; simpl in E; injection E as <- E.
    + subst raw. inversion H; subst. apply aligned_pair; [assumption..|constructor].
    + simpl. apply aligned_flag; [assumption|]. apply IH; assumption.
  - destruct raw0 as [|w0 [|w1 raw0]]; simpl in E.
    + discriminate.
    + injection E as <- E. congruence.
    + injection E as <- <- E. simpl. apply aligned_pair; [assumption..|].
      apply IH; assumption.
  - destruct raw0 as [|w0 raw0]; simpl in E; injection E as <- E.
    + congruence.
    + simpl. apply aligned_positional; [assumption|]. apply IH; assumption.
Qed.

Lemma new_inv idents : tokens_inv (new idents).
Proof.
  unfold tokens_inv, staged_ok, new; simpl. split; [constructor|].
  split; [rewrite map_size_empty; lia|now left].
Qed.

Lemma push_inv input t : tokens_inv t -> tokens_inv (push input t).
Proof.
  intros (Hal & Hlen & Hst). unfold push.
  destruct (empty input) eqn:Hin.
  { destruct (negb (empty (stage_pair_ t).1)); [|repeat split; assumption].
    unfold tokens_inv, staged_ok; simpl. repeat split; auto. }
  set (w := substitute (idents_ t) input).
  destruct (is_flag w) eqn:Hw.
  { unfold tokens_inv, staged_ok; simpl. split; [|split].
    - apply aligned_snoc_flag; assumption.
    - rewrite length_app; simpl. lia.
    - right. split; [assumption|]. eexists; reflexivity. }
  destruct (negb (empty (stage_pair_ t).1)) eqn:Hstaged.
  - unfold tokens_inv, staged_ok; simpl. split; [|split; [|now left]].
    + destruct Hst as [He|[Hk [raw0 Hraw]]].
      { rewrite He in Hstaged. discriminate. }
      rewrite Hraw, <- app_assoc. simpl.
      eapply aligned_snoc_value; eauto.
    + rewrite length_app; simpl.
      pose proof (map_size_insert (stage_pair_ t).1 w (pairs_ t)) as Hsz.
      destruct (pairs_ t !! (stage_pair_ t).1); simpl in Hsz; unfold id in Hsz; lia.
  - unfold tokens_inv, staged_ok; simpl. split; [|split].
    + apply aligned_snoc_positional; assumption.
    + rewrite !length_app; simpl. lia.
    + left. apply negb_false_iff, empty_true in Hstaged. assumption.
Qed.

(** What a successful [token_pop] does. *)
Lemma token_pop_true ndebug t t' :
  token_pop ndebug t = Ret (true, t') ->
  exists x, tokens_ t = x :: tokens_ t' /\ raw_ t = x :: raw_ t' /\
            pairs_ t' = pairs_ t /\ flags_ t' = flags_ t /\
            stage_pair_ t' = stage_pair_ t /\ idents_ t' = idents_ t.
Proof.
  unfold token_pop.
  destruct (tokens_ t) as [|tok toks] eqn:Et.
  { destruct ndebug; intros H; inversion H. }
  destruct (raw_ t) as [|r raw] eqn:Er.
  { destruct ndebug; discriminate. }
  destruct (String.eqb_spec r tok) as [->|Hne].
  - intros H. injection H as <-. simpl. exists tok. repeat split; reflexivity.
  - destruct ndebug; intros H; inversion H.
Qed.

Lemma pop_inv ndebug t t' :
  tokens_inv t -> token_pop ndebug t = Ret (true, t') -> tokens_inv t'.
Proof.
  intros (Hal & Hlen & Hst) Hpop.
  destruct (token_pop_true _ _ _ Hpop) as (x & Et & Er & Ep & _ & Es & _).
  rewrite Et, Er in *. unfold tokens_inv, staged_ok. rewrite Ep, Es.
  assert (Hx : is_flag x = false).
  { apply aligned_tokens_not_flags in Hal. inversion Hal; assumption. }
  split; [|split].
  - inversion Hal; subst; congruence.
  - simpl in Hlen. lia.
  - destruct Hst as [He|[Hk [raw0 Hraw]]]; [now left|right].
    split; [assumption|]. try rewrite Er in Hraw.
    destruct raw0 as [|r0 raw0]; simpl in Hraw; injection Hraw as -> Hraw.
    + congruence.
    + eauto.
Qed.

Lemma built_inv t : built t -> tokens_inv t.
Proof.
  induction 1; eauto using new_inv, push_inv, pop_inv.
Qed.

End tokens_facts.




Section pairing_facts.
Import cmd_tokens_t.

Lemma is_flag_not_empty (k : string) : is_flag k = true -> empty k = false.
Proof. destruct k; [discriminate|reflexivity]. Qed.

(** What pushing a flag name does. *)
Lemma push_flag (k : string) (t : cmd_tokens_t) :
  is_flag k = true ->
  push k t =
    {| idents_ := idents_ t; raw_ := raw_ t ++ [k];
       stage_pair_ := (k, (stage_pair_ t).2);
       tokens_ := tokens_ t; pairs_ := pairs_ t;
       flags_ := if negb (empty (stage_pair_ t).1)
                 then {[(stage_pair_ t).1]} ∪ flags_ t else flags_ t |}.
Proof.
  intros Hk. unfold push.
  rewrite (is_flag_not_empty k Hk), (substitute_flag _ k Hk), Hk. reflexivity.
Qed.

(** What pushing a word that is not a flag does while a name is staged. *)
Lemma push_value (w : string) (t : cmd_tokens_t) :
  empty w = false -> is_flag (substitute (idents_ t) w) = false ->
  empty (stage_pair_ t).1 = false ->
  push w t =
    {| idents_ := idents_ t; raw_ := raw_ t ++ [substitute (idents_ t) w];
       stage_pair_ := ("", (stage_pair_ t).2);
       tokens_ := tokens_ t;
       pairs_ := <[(stage_pair_ t).1 := substitute (idents_ t) w]> (pairs_ t);
       flags_ := flags_ t |}.
Proof.
  intros Hw Hsub Hst. unfold push. rewrite Hw, Hsub, Hst. reflexivity.
Qed.

End pairing_facts.

(** C6: ["-v foo bar -x"] gives the flag [-x], the pair [-v: foo] and the
    token [bar]. In general a flag name followed by a word that is not a
    flag becomes one pair, with the word in neither [tokens] nor [flags];
    a flag name followed by the flush or by another flag name is in
    [flags]. *)
Theorem flag_then_value_is_a_pair :
  (forall fuel idents, (14 <= fuel)%nat ->
     tokenize fuel "-v foo bar -x" (cmd_tokens_t.new idents) =
       Ret (1%nat, {| idents_ := idents; raw_ := ["-v"; "foo"; "bar"; "-x"];
                      stage_pair_ := ("", ""); tokens_ := ["bar"];
                      pairs_ := {[ "-v" := "foo" ]}; flags_ := {[ "-x" ]} |})) /\
  (forall t k w,
     cmd_tokens_t.is_flag k = true -> cmd_tokens_t.empty w = false ->
     cmd_tokens_t.is_flag (cmd_tokens_t.substitute (idents_ t) w) = false ->
     let t1 := cmd_tokens_t.push k t in
     let t2 := cmd_tokens_t.push w t1 in
     pairs_ t2 = <[k := cmd_tokens_t.substitute (idents_ t) w]> (pairs_ t) /\
     tokens_ t2 = tokens_ t /\ flags_ t2 = flags_ t1 /\
     raw_ t2 = (raw_ t ++ [k; cmd_tokens_t.substitute (idents_ t) w])%list /\
     (stage_pair_ t2).1 = "") /\
  (forall t k, cmd_tokens_t.is_flag k = true ->
     k ∈ flags_ (cmd_tokens_t.push "" (cmd_tokens_t.push k t))) /\
  (forall t k k', cmd_tokens_t.is_flag k = true -> cmd_tokens_t.is_flag k' = true ->
     k ∈ flags_ (cmd_tokens_t.push k' (cmd_tokens_t.push k t))).
Proof.
  split; [|split; [|split]].
  - intros fuel idents Hfuel. apply (tokenize_mono _ 14); [|assumption].
    destruct idents; vm_compute; reflexivity.
  - intros t k w Hk Hw Hsub t1 t2. subst t1 t2.
    rewrite (push_flag k t Hk).
    rewrite push_value; simpl; auto using is_flag_not_empty.
    rewrite <- app_assoc. repeat split; reflexivity.
  - intros t k Hk. rewrite (push_flag k t Hk). unfold cmd_tokens_t.push. simpl.
    rewrite (is_flag_not_empty k Hk). simpl. set_solver.
  - intros t k k' Hk Hk'. rewrite (push_flag k' _ Hk'), (push_flag k t Hk). simpl.
    rewrite (is_flag_not_empty k Hk). simpl. set_solver.
Qed.

Lemma flag_then_value_is_a_pair_witness :
  tokenize 20 "-v foo bar -x" (cmd_tokens_t.new None) =
    Ret (1%nat, {| idents_ := None; raw_ := ["-v"; "foo"; "bar"; "-x"];
                   stage_pair_ := ("", ""); tokens_ := ["bar"];
                   pairs_ := {[ "-v" := "foo" ]}; flags_ := {[ "-x" ]} |}) /\
  pairs_ (cmd_tokens_t.push "foo" (cmd_tokens_t.push "-v" (cmd_tokens_t.new None)))
    = <[ "-v" := "foo" ]> ∅ /\
  "-x" ∈ flags_ (cmd_tokens_t.push "" (cmd_tokens_t.push "-x" (cmd_tokens_t.new None))) /\
  "-v" ∈ flags_ (cmd_tokens_t.push "-x" (cmd_tokens_t.push "-v" (cmd_tokens_t.new None))).
Proof.
  destruct flag_then_value_is_a_pair as (Htok & Hpair & Hflush & Hflag).
  split; [|split; [|split]].
  - apply (Htok 20%nat None). lia.
  - apply (Hpair (cmd_tokens_t.new None) "-v" "foo"); reflexivity.
  - apply (Hflush (cmd_tokens_t.new None) "-x"); reflexivity.
  - apply (Hflag (cmd_tokens_t.new None) "-v" "-x"); reflexivity.
Defined.

(** ** the dispatcher: [cmd_parser_t] *)

Section dispatcher_facts.
Import cmd_parser_t.

Lemma execute_imp_S ndebug fuel p expr out :
  execute_imp ndebug (S fuel) p expr out =
    (prev_cmd ← last_cmd p;
     let p := history_push_back expr p in
     '(n, tokens) ← tokenize fuel (c_str expr) (cmd_tokens_t.new (Some (idents_ p)));
     if Nat.eqb n 0 then
       last ← last_cmd p;
       if negb (cmd_tokens_t.empty last) then
         execute_imp ndebug fuel p prev_cmd (out ++ [PrintlnRaw (c_str prev_cmd)])
       else Ret (false, p, out)
     else
       '(cmd, tokens, out) ← resolve ndebug fuel p tokens out;
       let '(b, out) := dispatch cmd tokens out in
       Ret (b, p, out)).
Proof. reflexivity. Qed.

Lemma last_cmd_push expr p : last_cmd (history_push_back expr p) = Ret expr.
Proof. unfold last_cmd, history_push_back; simpl. rewrite last_snoc. reflexivity. Qed.

Lemma last_cmd_Some p prev : last (history_ p) = Some prev -> last_cmd p = Ret prev.
Proof. unfold last_cmd. intros ->. reflexivity. Qed.

(** The tokenizer only pushes. *)
Lemma tokenize_loop_built in_ fuel :
  forall src start out r, built out ->
    tokenize_loop fuel in_ src start out = Ret r -> built r.2.
Proof.
  induction fuel as [|fuel IH]; intros src start out r Hb; cbn [tokenize_loop];
    [discriminate|].
  destruct (String.get src in_) as [c|].
  - destruct (is_char " " c || is_char TAB c); apply IH; auto using built_push.
  - intros H. injection H as <-. assumption.
Qed.

Lemma tokenize_built fuel in_ out n t :
  built out -> tokenize fuel in_ out = Ret (n, t) ->
  built t /\ n = length (tokens_ t).
Proof.
  intros Hb. unfold tokenize.
  destruct (tokenize_loop fuel in_ 0 0 out) as [[[src start] o]| | |] eqn:E;
    try discriminate.
  apply tokenize_loop_built in E; [|assumption]. simpl in E.
  rewrite bind_Ret. intros H. injection H as <- <-.
  split; [|reflexivity].
  apply built_push. destruct (negb (Nat.eqb src start)); auto using built_push.
Qed.

Lemma tokenize_loop_not_Undefined in_ fuel :
  forall src start out, tokenize_loop fuel in_ src start out <> Undefined.
Proof.
  induction fuel as [|fuel IH]; intros src start out; cbn [tokenize_loop];
    [discriminate|].
  destruct (String.get src in_) as [c|]; [|discriminate].
  destruct (is_char " " c || is_char TAB c); apply IH.
Qed.

Lemma tokenize_not_Undefined fuel in_ out : tokenize fuel in_ out <> Undefined.
Proof.
  unfold tokenize. apply bind_not_Undefined.
  - apply tokenize_loop_not_Undefined.
  - intros [[src start] o] _. discriminate.
Qed.


Lemma token_pop_not_Undefined ndebug t :
  tokens_inv t -> cmd_tokens_t.token_pop ndebug t <> Undefined.
Proof.
  intros (_ & Hlen & _). unfold cmd_tokens_t.token_pop.
  destruct (tokens_ t) as [|tok toks]; [destruct ndebug; discriminate|].
  destruct (raw_ t) as [|r raw]; [simpl in Hlen; lia|].
  destruct (String.eqb r tok); [discriminate|destruct ndebug; discriminate].
Qed.

Lemma tokenize_outcome fuel in_ out :
  tokenize fuel in_ out = Timeout \/ exists n t, tokenize fuel in_ out = Ret (n, t).
Proof.
  unfold tokenize.
  assert (H : forall fuel src start o,
             tokenize_loop fuel in_ src start o = Timeout \/
             exists r, tokenize_loop fuel in_ src start o = Ret r).
  { clear. induction fuel as [|fuel IH]; intros src start o; cbn [tokenize_loop]; [now left|].
    destruct (String.get src in_) as [c|]; [|eauto].
    destruct (is_char " " c || is_char TAB c); apply IH. }
  destruct (H fuel 0%nat 0%nat out) as [->|[[[src start] o] ->]]; [now left|right].
  rewrite bind_Ret. eauto.
Qed.

(** A blank statement whose predecessor is blank as well is repeated for
    ever: the test at cmd.cpp:179 reads the statement just recorded, which
    is not empty, and the call at cmd.cpp:181 starts over with the blank
    predecessor. *)
Lemma blank_after_blank_never_returns ndebug fuel :
  forall p out, last (history_ p) = Some " " ->
    execute_imp ndebug fuel p " " out = Timeout.
Proof.
  induction fuel as [|fuel IH]; intros p out Hlast; [reflexivity|].
  rewrite execute_imp_S, (last_cmd_Some _ _ Hlast), bind_Ret. cbv zeta.
  change (idents_ (history_push_back " " p)) with (idents_ p).
  change (c_str " ") with " ".
  destruct (tokenize_outcome fuel " " (cmd_tokens_t.new (Some (idents_ p))))
    as [->|(n & t & E)]; [reflexivity|].
  rewrite E, bind_Ret.
  assert (E3 : tokenize 3 " " (cmd_tokens_t.new (Some (idents_ p))) =
               Ret (0%nat, cmd_tokens_t.new (Some (idents_ p)))) by reflexivity.
  apply (tokenize_mono _ _ (fuel + 3)) in E; [|lia].
  apply (tokenize_mono _ _ (fuel + 3)) in E3; [|lia].
  rewrite E in E3. injection E3 as -> ->.
  cbn [Nat.eqb]. rewrite last_cmd_push, bind_Ret. cbn [cmd_tokens_t.empty negb].
  apply IH. unfold history_push_back; simpl. apply last_snoc.
Qed.

End dispatcher_facts.

(** C10: [execute_imp] reads [history_.back()] before it appends the
    statement: on an empty history that read is undefined, whatever the
    statement and the build. *)
Theorem execute_imp_needs_history ndebug fuel (p : cmd_parser_t.t) (expr : string)
    (out : list event) :
  cmd_parser_t.history_ p = [] ->
  cmd_parser_t.execute_imp ndebug (S fuel) p expr out = Undefined.
Proof.
  intros Hh. rewrite execute_imp_S. unfold cmd_parser_t.last_cmd.
  rewrite Hh. reflexivity.
Qed.

Lemma execute_imp_needs_history_witness :
  cmd_parser_t.execute_imp true 10 (demo.parser []) "start" [] = Undefined.
Proof.
  apply (execute_imp_needs_history true 9 (demo.parser []) "start" []). reflexivity.
Defined.

(** C3, as the code has it: once a target command is resolved, the test
    for [?] reads the last of the remaining positional tokens, not of the
    raw words: when it is [?] the answer is that of [on_usage], otherwise
    that of [on_execute] on the remaining tokens. *)
Theorem usage_query_reads_last_token ndebug fuel (p : cmd_parser_t.t) (expr : string)
    (out : list event) prev n toks cmd toks' out' :
  last (cmd_parser_t.history_ p) = Some prev ->
  tokenize fuel (c_str expr) (cmd_tokens_t.new (Some (cmd_parser_t.idents_ p)))
    = Ret (n, toks) ->
  n <> 0%nat ->
  cmd_parser_t.resolve ndebug fuel (cmd_parser_t.history_push_back expr p) toks out
    = Ret (Some cmd, toks', out') ->
  cmd_parser_t.execute_imp ndebug (S fuel) p expr out =
    Ret (let '(b, o) :=
           if bool_decide (last (tokens_ toks') = Some "?")
           then cmd_t.on_usage cmd out'
           else cmd_t.on_execute cmd toks' out' in
         (b, cmd_parser_t.history_push_back expr p, o)).
Proof.
  intros Hlast Htok Hn Hres. rewrite execute_imp_S.
  rewrite (last_cmd_Some _ _ Hlast), bind_Ret. cbv zeta.
  change (cmd_parser_t.idents_ (cmd_parser_t.history_push_back expr p))
    with (cmd_parser_t.idents_ p).
  rewrite Htok, bind_Ret.
  destruct (Nat.eqb_spec n 0) as [|_]; [contradiction|].
  rewrite Hres, bind_Ret. unfold cmd_parser_t.dispatch.
  destruct (last (tokens_ toks')) as [tok|] eqn:El.
  - destruct (String.eqb_spec tok "?") as [->|Hne].
    + rewrite bool_decide_eq_true_2 by reflexivity.
      destruct (cmd_t.on_usage cmd out'); reflexivity.
    + rewrite bool_decide_eq_false_2 by congruence.
      destruct (cmd_t.on_execute cmd toks' out'); reflexivity.
  - rewrite bool_decide_eq_false_2 by congruence.
    destruct (cmd_t.on_execute cmd toks' out'); reflexivity.
Qed.

Lemma usage_query_reads_last_token_witness :
  cmd_parser_t.execute_imp true 21 (demo.parser ["status"]) "start ? -v" [] =
    Ret (true, demo.parser ["status"; "start ? -v"], [Println "usage start"]).
Proof.
  eapply eq_trans.
  - eapply (usage_query_reads_last_token true 20 (demo.parser ["status"]) "start ? -v" []
              "status" 2).
    + reflexivity.
    + vm_compute. reflexivity.
    + lia.
    + vm_compute. reflexivity.
  - vm_compute. reflexivity.
Defined.

(** C3 as stated fails. In [start -v ?] the last raw word left after [start]
    is resolved is [?], and [on_execute] is called; in [start ? -v] the last
    raw word left is [-v], and [on_usage] is called. *)
Lemma usage_query_raw_counterexample :
  (exists toks toks',
     tokenize 20 "start -v ?" (cmd_tokens_t.new (Some ∅)) = Ret (1%nat, toks) /\
     cmd_parser_t.resolve true 20
       (cmd_parser_t.history_push_back "start -v ?" (demo.parser ["status"])) toks []
       = Ret (Some demo.start, toks', []) /\
     last (raw_ toks') = Some "?" /\
     cmd_parser_t.execute_imp true 21 (demo.parser ["status"]) "start -v ?" [] =
       Ret (true, demo.parser ["status"; "start -v ?"], (cmd_t.on_execute demo.start toks' []).2) /\
     cmd_t.on_execute demo.start toks' [] <> cmd_t.on_usage demo.start []) /\
  (exists toks toks',
     tokenize 20 "start ? -v" (cmd_tokens_t.new (Some ∅)) = Ret (2%nat, toks) /\
     cmd_parser_t.resolve true 20
       (cmd_parser_t.history_push_back "start ? -v" (demo.parser ["status"])) toks []
       = Ret (Some demo.start, toks', []) /\
     last (raw_ toks') = Some "-v" /\
     cmd_parser_t.execute_imp true 21 (demo.parser ["status"]) "start ? -v" [] =
       Ret (true, demo.parser ["status"; "start ? -v"], (cmd_t.on_usage demo.start []).2) /\
     cmd_t.on_usage demo.start [] <> cmd_t.on_execute demo.start toks' []).
Proof.
  split; do 2 eexists;
    (split; [vm_compute; reflexivity|]);
    (split; [vm_compute; reflexivity|]);
    (split; [vm_compute; reflexivity|]);
    (split; [vm_compute; reflexivity|]); vm_compute; discriminate.
Qed.

(** C2, as the code has it: a statement that is not empty and has no
    positional token is recorded, the statement before it is handed to
    [println] as the format, which echoes it without the [> ] of
    cmd.cpp:180, and is executed in its place, its answer being the
    answer. An empty statement given to [execute] is passed over: nothing
    is echoed or executed, and the answer is success. *)
Theorem blank_statement_repeats_last ndebug fuel (p : cmd_parser_t.t) (expr : string)
    (out : list event) prev toks :
  expr <> "" ->
  last (cmd_parser_t.history_ p) = Some prev ->
  tokenize fuel (c_str expr) (cmd_tokens_t.new (Some (cmd_parser_t.idents_ p)))
    = Ret (0%nat, toks) ->
  cmd_parser_t.execute_imp ndebug (S fuel) p expr out =
    cmd_parser_t.execute_imp ndebug fuel (cmd_parser_t.history_push_back expr p) prev
      (out ++ [PrintlnRaw (c_str prev)]) /\
  cmd_parser_t.execute ndebug fuel p "" out = Ret (true, p, out).
Proof.
  intros Hne Hlast Htok. split; [|reflexivity].
  rewrite execute_imp_S.
  rewrite (last_cmd_Some _ _ Hlast), bind_Ret. cbv zeta.
  change (cmd_parser_t.idents_ (cmd_parser_t.history_push_back expr p))
    with (cmd_parser_t.idents_ p).
  rewrite Htok, bind_Ret. simpl Nat.eqb. cbv iota.
  rewrite last_cmd_push, bind_Ret.
  destruct expr; [contradiction|reflexivity].
Qed.

Lemma blank_statement_repeats_last_witness :
  cmd_parser_t.execute_imp true 11 (demo.parser ["start"]) " " [] =
    Ret (true, demo.parser ["start"; " "; "start"],
         [PrintlnRaw "start"; Println "execute start"]).
Proof.
  destruct (blank_statement_repeats_last true 10 (demo.parser ["start"]) " " []
              "start" (cmd_tokens_t.new (Some ∅))) as [-> _].
  - discriminate.
  - reflexivity.
  - vm_compute. reflexivity.
  - vm_compute. reflexivity.
Defined.

(** C2 as stated fails for the empty statement. After [start] has run with
    success, [execute_imp] on the empty statement echoes nothing, calls no
    command and answers [false]; [execute] on it does nothing at all. *)
Lemma empty_statement_counterexample :
  cmd_parser_t.execute_imp true 10 (demo.parser ["status"]) "start" [] =
    Ret (true, demo.parser ["status"; "start"], [Println "execute start"]) /\
  tokenize 10 "" (cmd_tokens_t.new (Some ∅)) = Ret (0%nat, cmd_tokens_t.new (Some ∅)) /\
  cmd_parser_t.execute_imp true 10 (demo.parser ["status"; "start"]) ""
      [Println "execute start"] =
    Ret (false, demo.parser ["status"; "start"; ""], [Println "execute start"]) /\
  cmd_parser_t.execute true 10 (demo.parser ["status"; "start"]) ""
      [Println "execute start"] =
    Ret (true, demo.parser ["status"; "start"], [Println "execute start"]).
Proof. repeat split; vm_compute; reflexivity. Qed.

Section split_facts.

Lemma string_find_app (c : ascii) (pre rest : string) :
  string_find c (String.length pre) (pre ++ rest) =
    (fun k => (String.length pre + k)%nat) <$> string_find c 0 rest.
Proof.
  induction pre as [|d pre IH].
  - rewrite append_nil. simpl. destruct (string_find c 0 rest); reflexivity.
  - rewrite append_cons. simpl. rewrite IH.
    destruct (string_find c 0 rest); reflexivity.
Qed.

Lemma split_on_no_delimiter (c : ascii) (rest : string) :
  string_find c 0 rest = None -> split_on c rest = [rest].
Proof.
  induction rest as [|d rest IH]; simpl; [reflexivity|].
  destruct (Ascii.eqb d c); [discriminate|].
  destruct (string_find c 0 rest); [discriminate|].
  intros _. rewrite IH; reflexivity.
Qed.

Lemma split_on_delimiter (c : ascii) (rest : string) (k : nat) :
  string_find c 0 rest = Some k ->
  exists seg rest', rest = seg ++ String c rest' /\ String.length seg = k /\
                    split_on c rest = seg :: split_on c rest'.
Proof.
  revert k. induction rest as [|d rest IH]; simpl; intros k; [discriminate|].
  destruct (Ascii.eqb_spec d c) as [->|Hne].
  - intros H. injection H as <-. exists "", rest. repeat split.
  - destruct (string_find c 0 rest) as [k'|]; [|discriminate].
    intros H. injection H as <-.
    destruct (IH k' eq_refl) as (seg & rest' & -> & <- & Hs).
    exists (String d seg), rest'. rewrite Hs. repeat split.
Qed.

End split_facts.

Section execute_facts.
Import cmd_parser_t.

Lemma execute_loop_split ndebug fuel (n : nat) :
  forall pre rest p out, (String.length rest < n)%nat ->
    execute_loop ndebug fuel n (pre ++ rest) (String.length pre) p out =
    run_statements ndebug fuel (split_on ";" rest) p out.
Proof.
  induction n as [|n IH]; intros pre rest p out Hlen; [lia|].
  cbn [execute_loop]. rewrite string_find_app.
  destruct (string_find ";" 0 rest) as [k|] eqn:Hfind; simpl fmap.
  - destruct (split_on_delimiter _ _ _ Hfind) as (seg & rest' & -> & <- & ->).
    assert (Hcmd : (if Nat.ltb (String.length pre) (String.length pre + String.length seg)
                    then substring (String.length pre)
                           (String.length pre + String.length seg - String.length pre)
                           (pre ++ seg ++ String ";" rest')
                    else "") = seg).
    { destruct seg as [|c seg].
      - simpl. rewrite Nat.add_0_r, Nat.ltb_irrefl. reflexivity.
      - destruct (Nat.ltb_spec (String.length pre)
                    (String.length pre + String.length (String c seg))) as [_|H];
          [|simpl in H; lia].
        replace (String.length pre + String.length (String c seg) - String.length pre)%nat
          with (String.length (String c seg)) by lia.
        rewrite substring_app_skip. apply substring_0_prefix. }
    assert (Hnext : forall p' out',
              execute_loop ndebug fuel n (pre ++ seg ++ String ";" rest')
                (S (String.length pre + String.length seg)) p' out' =
              run_statements ndebug fuel (split_on ";" rest') p' out').
    { intros p' out'.
      specialize (IH ((pre ++ seg) ++ ";") rest' p' out').
      rewrite !append_assoc in IH. rewrite !length_append in IH. simpl in IH.
      replace (String.length pre + (String.length seg + 1))%nat
        with (S (String.length pre + String.length seg)) in IH by lia.
      apply IH. rewrite length_append in Hlen. simpl in Hlen. lia. }
    rewrite Hcmd. cbn [run_statements].
    destruct (cmd_tokens_t.empty seg); simpl.
    + apply Hnext.
    + destruct (execute_imp ndebug fuel p seg out) as [[[ok p'] out']| | |]; simpl;
        try reflexivity.
      destruct ok; simpl; [apply Hnext|reflexivity].
  - rewrite substr_from_app, (split_on_no_delimiter _ _ Hfind). cbn [run_statements].
    destruct (cmd_tokens_t.empty rest); simpl; [reflexivity|].
    destruct (execute_imp ndebug fuel p rest out) as [[[ok p'] out']| | |]; simpl;
      try reflexivity.
    destruct ok; reflexivity.
Qed.

End execute_facts.
(** C7: [execute] runs the statements between the [;] in order, passing
    over the empty ones; the first one that fails is reported with
    [command_failed] and ends the run with [false], the statements after it
    not being executed; when none fails the answer is [true]. *)
Theorem execute_runs_statements ndebug fuel (p : cmd_parser_t.t) (expr : string)
    (out : list event) :
  cmd_parser_t.execute ndebug fuel p expr out =
    run_statements ndebug fuel (split_on ";" expr) p out.
Proof.
  unfold cmd_parser_t.execute.
  apply (execute_loop_split ndebug fuel (S (String.length expr)) "" expr p out). lia.
Qed.

Section run_statements_facts.

(** A failing statement ends the run: what follows it is not looked at. *)
Lemma run_statements_failure ndebug fuel cmd rest p out p' out' :
  cmd <> "" ->
  cmd_parser_t.execute_imp ndebug fuel p cmd out = Ret (false, p', out') ->
  run_statements ndebug fuel (cmd :: rest) p out =
    Ret (false, p', (out' ++ [CommandFailed cmd])%list).
Proof.
  intros Hne H. cbn [run_statements]. rewrite H.
  destruct cmd; [contradiction|reflexivity].
Qed.

Lemma run_statements_success ndebug fuel cmd rest p out p' out' :
  cmd <> "" ->
  cmd_parser_t.execute_imp ndebug fuel p cmd out = Ret (true, p', out') ->
  run_statements ndebug fuel (cmd :: rest) p out =
    run_statements ndebug fuel rest p' out'.
Proof.
  intros Hne H. cbn [run_statements]. rewrite H.
  destruct cmd; [contradiction|reflexivity].
Qed.

Lemma run_statements_all_empty ndebug fuel segs p out :
  Forall (fun cmd => cmd = "") segs ->
  run_statements ndebug fuel segs p out = Ret (true, p, out).
Proof.
  induction 1 as [|cmd segs -> _ IH]; [reflexivity|]. exact IH.
Qed.

Example execute_stops_at_failure :
  split_on ";" "start;;stop;fail;status" = ["start"; ""; "stop"; "fail"; "status"] /\
  cmd_parser_t.execute true 10 (demo.parser ["status"]) "start;;stop;fail;status" [] =
    Ret (false, demo.parser ["status"; "start"; "stop"; "fail"],
         [Println "execute start"; Println "execute stop"; Println "execute fail";
          CommandFailed "fail"]).
Proof. split; vm_compute; reflexivity. Qed.

Example execute_only_delimiters :
  cmd_parser_t.execute true 10 (demo.parser []) ";;" [] = Ret (true, demo.parser [], []).
Proof. vm_compute. reflexivity. Qed.

End run_statements_facts.

(** * Further properties *)

(** ** [find_matches] *)

Section find_matches_facts.

Lemma best_score_snoc l sub c :
  best_score (l ++ [c]) sub = Z.max (best_score l sub) (score sub c).
Proof. unfold best_score. rewrite fold_left_app. reflexivity. Qed.

Lemma filter_none {A} (f : A -> bool) (l : list A) :
  (forall x, In x l -> f x = false) -> List.filter f l = [].
Proof.
  induction l as [|x l IH]; intros H; simpl; [reflexivity|].
  rewrite (H x) by (left; reflexivity). apply IH. intros y Hy. apply H. right. exact Hy.
Qed.

(** The state of the loop after the commands of [l]. *)
Lemma find_matches_fold l sub :
  fold_left (find_matches_step sub) l (0, []) =
    (best_score l sub,
     List.filter (fun c => Z.eqb (score sub c) (best_score l sub)) l) /\
  (forall c, In c l -> score sub c <= best_score l sub) /\
  0 <= best_score l sub.
Proof.
  induction l as [|c l IH] using rev_ind.
  - split; [reflexivity|]. split; [intros c []|]. unfold best_score; simpl. lia.
  - destruct IH as (Hfold & Hle & H0).
    rewrite fold_left_app, Hfold, best_score_snoc. cbn [fold_left find_matches_step].
    fold (score sub c).
    split; [|split].
    + rewrite List.filter_app. cbn [List.filter].
      destruct (Z.ltb_spec (best_score l sub) (score sub c)) as [Hlt|Hge].
      * rewrite Z.max_r by lia. rewrite Z.eqb_refl.
        rewrite filter_none; [reflexivity|].
        intros x Hx. apply Z.eqb_neq. specialize (Hle x Hx). lia.
      * rewrite Z.max_l by lia.
        destruct (Z.eqb_spec (score sub c) (best_score l sub)) as [He|Hne];
          [reflexivity|]. rewrite app_nil_r. reflexivity.
    + intros x Hx. apply in_app_iff in Hx as [Hx|[<-|[]]]; [specialize (Hle x Hx)|]; lia.
    + lia.
Qed.

Lemma best_score_reached l sub :
  best_score l sub = 0 \/ exists c, In c l /\ score sub c = best_score l sub.
Proof.
  induction l as [|c l IH] using rev_ind; [now left|].
  rewrite best_score_snoc.
  destruct (Z.max_spec (best_score l sub) (score sub c)) as [[_ ->]|[_ ->]].
  - right. exists c. split; [apply in_app_iff; right; left|]; reflexivity.
  - destruct IH as [H|(x & Hx & Hs)]; [now left|].
    right. exists x. split; [apply in_app_iff; now left|assumption].
Qed.

Lemma score_spec sub c :
  score sub c =
    if String.eqb sub (cmd_t.name_ c) then cmd_util_t.INT_MAX
    else if String.prefix sub (cmd_t.name_ c) then Z.of_nat (String.length sub)
    else -1.
Proof.
  unfold score, cmd_util_t.str_match. rewrite str_match_from_spec. reflexivity.
Qed.



Lemma score_exact sub c :
  Z.of_nat (String.length sub) < cmd_util_t.INT_MAX ->
  (score sub c = cmd_util_t.INT_MAX <-> cmd_t.name_ c = sub).
Proof.
  intros Hlen. rewrite score_spec.
  destruct (String.eqb_spec sub (cmd_t.name_ c)) as [<-|Hneq]; [tauto|].
  split; [|congruence].
  destruct (String.prefix sub (cmd_t.name_ c)); unfold cmd_util_t.INT_MAX in *; lia.
Qed.

Lemma score_le_max sub c :
  Z.of_nat (String.length sub) < cmd_util_t.INT_MAX -> score sub c <= cmd_util_t.INT_MAX.
Proof.
  intros Hlen. rewrite score_spec.
  destruct (String.eqb sub (cmd_t.name_ c)); [lia|].
  destruct (String.prefix sub (cmd_t.name_ c)); unfold cmd_util_t.INT_MAX in *; lia.
Qed.

Lemma best_score_exact l sub c0 :
  Z.of_nat (String.length sub) < cmd_util_t.INT_MAX ->
  In c0 l -> cmd_t.name_ c0 = sub -> best_score l sub = cmd_util_t.INT_MAX.
Proof.
  intros Hlen Hin Hname.
  destruct (find_matches_fold l sub) as (_ & Hle & _).
  specialize (Hle c0 Hin). apply (score_exact sub c0 Hlen) in Hname.
  destruct (best_score_reached l sub) as [H0|(c & Hc & Hs)].
  - unfold cmd_util_t.INT_MAX in *. lia.
  - pose proof (score_le_max sub c Hlen). lia.
Qed.

End find_matches_facts.


(** X2. A command whose name is the word itself always wins: every command
    that [find_matches] returns then has exactly that name, and when the
    names of the list are distinct the result is that command alone, even
    if the word is a prefix of other names. *)
Theorem find_matches_exact_name_wins (list_ : list cmd_t.t) (sub : string) (c0 : cmd_t.t) :
  Z.of_nat (String.length sub) < cmd_util_t.INT_MAX ->
  In c0 list_ -> cmd_t.name_ c0 = sub ->
  (forall c, In c (find_matches list_ sub []).2 <-> In c list_ /\ cmd_t.name_ c = sub) /\
  (NoDup (map cmd_t.name_ list_) -> (find_matches list_ sub []).2 = [c0]).
Proof.
  intros Hlen Hin Hname.
  destruct (find_matches_fold list_ sub) as (Hfold & _).
  unfold find_matches. rewrite Hfold. cbn [snd].
  rewrite (best_score_exact list_ sub c0 Hlen Hin Hname).
  assert (Hiff : forall c, In c (List.filter
                    (fun c => Z.eqb (score sub c) cmd_util_t.INT_MAX) list_)
                  <-> In c list_ /\ cmd_t.name_ c = sub).
  { intros c. rewrite filter_In, Z.eqb_eq, (score_exact sub c Hlen). reflexivity. }
  split; [exact Hiff|].
  intros Hnd. clear Hfold Hiff.
  induction list_ as [|c l IH]; [destruct Hin|].
  cbn [List.filter]. cbn [map] in Hnd. apply NoDup_cons in Hnd as [Hnotin Hnd].
  destruct (Z.eqb_spec (score sub c) cmd_util_t.INT_MAX) as [He|Hne].
  - apply (score_exact sub c Hlen) in He.
    assert (List.filter (fun c => Z.eqb (score sub c) cmd_util_t.INT_MAX) l = []) as ->.
    { apply filter_none. intros x Hx. apply Z.eqb_neq. rewrite (score_exact sub x Hlen).
      intros Hxn. apply Hnotin. rewrite He, <- Hxn. apply list_elem_of_In, in_map. exact Hx. }
    destruct Hin as [->|Hin]; [reflexivity|].
    exfalso. apply Hnotin. rewrite He, <- Hname. apply list_elem_of_In, in_map. exact Hin.
  - destruct Hin as [->|Hin].
    + exfalso. apply Hne. apply (score_exact sub c0 Hlen). exact Hname.
    + apply IH; assumption.
Qed.

Lemma find_matches_exact_name_wins_witness :
  (find_matches [demo.leaf "stop" true; demo.leaf "stopall" true] "stop" []).2
    = [demo.leaf "stop" true].
Proof.
  apply (find_matches_exact_name_wins _ "stop" (demo.leaf "stop" true)).
  - vm_compute. reflexivity.
  - left. reflexivity.
  - reflexivity.
  - simpl. apply NoDup_cons_2; [|apply NoDup_cons_2; [|apply NoDup_nil_2]];
      rewrite list_elem_of_In; simpl; intuition discriminate.
Defined.



(** ** the tokenizer, on every input *)

Section tokenize_more.
Import cmd_tokens_t.

Lemma no_tab_false (in_ : string) :
  no_tab in_ = false ->
  exists k ch, String.get k in_ = Some ch /\ is_char TAB ch = true.
Proof.
  induction in_ as [|c in_ IH]; cbn [no_tab]; [discriminate|].
  destruct (is_char TAB c) eqn:Hc.
  - intros _. exists 0%nat, c. split; [reflexivity|assumption].
  - intros H. destruct (IH H) as (k & ch & Hk & Hch). exists (S k), ch. split; assumption.
Qed.

Lemma pushed_words_spaces (k : nat) : pushed_words true "" (spaces k) = [].
Proof.
  rewrite <- (append_empty_r (spaces k)). rewrite pushed_words_skip; [reflexivity|exact I].
Qed.

Lemma pushed_words_trailing (w : string) (b : nat) :
  plain_word w -> pushed_words false "" (w ++ spaces b) = [w].
Proof.
  intros (Hne & Hns & _). rewrite pushed_words_word by assumption. rewrite append_nil.
  destruct b as [|b]; cbn [spaces pushed_words].
  - destruct w; [contradiction|reflexivity].
  - unfold is_char at 1; simpl Ascii.eqb; cbv iota. rewrite pushed_words_spaces. reflexivity.
Qed.

Lemma pushed_words_join_trailing (ws : list (string * nat)) (last : string) (b : nat) :
  Forall (fun wg => plain_word wg.1) ws -> plain_word last ->
  pushed_words false "" (join_words ws last ++ spaces b) = (map fst ws ++ [last])%list.
Proof.
  intros Hws Hlast. induction Hws as [|[w g] ws Hw Hws IH]; cbn [join_words map fst].
  - apply pushed_words_trailing. assumption.
  - destruct Hw as (Hne & Hns & Hnt). simpl in Hne, Hns.
    rewrite !append_assoc. rewrite pushed_words_word by assumption.
    rewrite append_nil. cbn [spaces]. rewrite append_cons. cbn [pushed_words].
    unfold is_char at 1; simpl Ascii.eqb; cbv iota.
    rewrite pushed_words_skip.
    + rewrite IH. reflexivity.
    + destruct ws as [|[w' g'] ws'].
      * apply starts_word_plain. assumption.
      * cbn [join_words]. rewrite append_assoc. apply starts_word_plain.
        inversion Hws; assumption.
Qed.

Lemma pushed_words_leading (a : nat) (r : string) :
  starts_word r ->
  pushed_words false "" (spaces a ++ r) =
    ((if Nat.eqb a 0 then [] else [""]) ++ pushed_words false "" r)%list.
Proof.
  intros Hr. destruct a as [|a]; [reflexivity|].
  cbn [spaces]. rewrite append_cons. cbn [pushed_words].
  unfold is_char at 1; simpl Ascii.eqb; cbv iota.
  rewrite pushed_words_skip by assumption. reflexivity.
Qed.

Lemma pushes_app ws1 ws2 t : pushes (ws1 ++ ws2) t = pushes ws2 (pushes ws1 t).
Proof. unfold pushes. apply fold_left_app. Qed.

Lemma push_flush_unstaged (t : cmd_tokens_t) : (stage_pair_ t).1 = "" -> push "" t = t.
Proof. intros H. unfold push. rewrite H. reflexivity. Qed.

End tokenize_more.

(** X4. A tab anywhere in the input keeps the tokenizer in its loop for
    ever: it returns for no amount of fuel. *)
Theorem tokenize_never_returns_with_tab (in_ : string) (out : cmd_tokens_t) :
  no_tab in_ = false -> forall fuel, tokenize fuel in_ out = Timeout.
Proof.
  intros H fuel. destruct (no_tab_false in_ H) as (k & ch & Hk & Hch).
  apply (tokenize_tab in_ k ch Hk Hch).
Qed.

Lemma tokenize_never_returns_with_tab_witness :
  tokenize 100 ("start" ++ TAB) (cmd_tokens_t.new None) = Timeout.
Proof.
  apply (tokenize_never_returns_with_tab ("start" ++ TAB)). reflexivity.
Defined.

(** X5. On an input without a tab the tokenizer returns within one round
    per character and one more, and what it has done is to push the words
    of the input, in order, and then the flush. *)
Theorem tokenize_pushes_words (in_ : string) (out : cmd_tokens_t) :
  no_tab in_ = true ->
  forall fuel, (String.length in_ < fuel)%nat ->
    tokenize fuel in_ out =
      Ret (cmd_tokens_t.token_size
             (cmd_tokens_t.push "" (pushes (pushed_words false "" in_) out)),
           cmd_tokens_t.push "" (pushes (pushed_words false "" in_) out)).
Proof.
  intros Hnt fuel Hfuel.
  apply (tokenize_mono in_ (S (String.length in_))); [|lia].
  apply tokenize_words. assumption.
Qed.

Lemma tokenize_pushes_words_witness :
  tokenize 12 "stop  now" (cmd_tokens_t.new None) =
    Ret (2%nat, pushes ["stop"; "now"] (cmd_tokens_t.new None)).
Proof.
  apply (tokenize_pushes_words "stop  now" (cmd_tokens_t.new None)).
  - reflexivity.
  - simpl. lia.
Defined.

(** X6. Words separated by runs of spaces, with spaces before the first
    and after the last: whatever the lengths of the runs, the tokenizer
    pushes the words in order and then the flush, when no flag name is
    staged on entry. *)
Theorem tokenize_ignores_space_runs (a b : nat) (ws : list (string * nat))
    (last : string) (out : cmd_tokens_t) :
  Forall (fun wg => plain_word wg.1) ws -> plain_word last ->
  (stage_pair_ out).1 = "" ->
  let in_ := spaces a ++ join_words ws last ++ spaces b in
  tokenize (S (String.length in_)) in_ out =
    Ret (cmd_tokens_t.token_size
           (cmd_tokens_t.push "" (pushes (map fst ws ++ [last]) out)),
         cmd_tokens_t.push "" (pushes (map fst ws ++ [last]) out)).
Proof.
  intros Hws Hlast Hst in_.
  assert (Hnt : no_tab in_ = true).
  { unfold in_. rewrite !no_tab_app, !no_tab_spaces, no_tab_join by assumption. reflexivity. }
  rewrite (tokenize_words in_ out Hnt). unfold in_.
  rewrite pushed_words_leading.
  - rewrite pushed_words_join_trailing by assumption.
    destruct (Nat.eqb a 0); [reflexivity|].
    rewrite pushes_app. cbn [pushes fold_left].
    rewrite (push_flush_unstaged out Hst). reflexivity.
  - destruct ws as [|[w g] ws'].
    + apply starts_word_plain. assumption.
    + cbn [join_words]. rewrite append_assoc. apply starts_word_plain.
      inversion Hws; assumption.
Qed.

Lemma tokenize_ignores_space_runs_witness :
  tokenize 19 "  stop    -v  now " (cmd_tokens_t.new None) =
    Ret (1%nat, cmd_tokens_t.push "" (pushes ["stop"; "-v"; "now"] (cmd_tokens_t.new None))).
Proof.
  apply (tokenize_ignores_space_runs 2 1 [("stop", 3%nat); ("-v", 1%nat)] "now"
           (cmd_tokens_t.new None)).
  - repeat constructor; discriminate.
  - repeat constructor; discriminate.
  - reflexivity.
Defined.

(** X7. An input of spaces only, the empty input included, leaves a fresh
    token list as it is and counts no token. *)
Theorem tokenize_blank (k : nat) (idents : option (gmap string Z)) :
  tokenize (S k) (spaces k) (cmd_tokens_t.new idents) =
    Ret (0%nat, cmd_tokens_t.new idents).
Proof.
  assert (Hnt : no_tab (spaces k) = true) by apply no_tab_spaces.
  pose proof (tokenize_words (spaces k) (cmd_tokens_t.new idents) Hnt) as H.
  rewrite length_spaces in H. rewrite H.
  destruct k as [|k]; cbn [spaces pushed_words]; [reflexivity|].
  unfold is_char at 1; simpl Ascii.eqb; cbv iota.
  rewrite pushed_words_spaces. reflexivity.
Qed.

(** ** the token list, word by word *)

Section words_inv_facts.
Import cmd_tokens_t.

Lemma to_string_not_empty (val : Z) : to_string val <> "".
Proof.
  unfold to_string. destruct (N.to_uint (Z.to_N val)); simpl; discriminate.
Qed.

Lemma to_string_not_flag (val : Z) : is_flag (to_string val) = false.
Proof.
  unfold to_string. destruct (N.to_uint (Z.to_N val)); reflexivity.
Qed.

Lemma substitute_not_empty idents (input : string) :
  input <> "" -> substitute idents input <> "".
Proof.
  intros Hne. unfold substitute. destruct idents as [ids|]; [|assumption].
  destruct input as [|c input]; [contradiction|].
  destruct (Ascii.eqb_spec c "$") as [->|Hc].
  - destruct (ids !! c_str input); [apply to_string_not_empty|discriminate].
  - destruct c as [[] [] [] [] [] [] [] []]; try discriminate.
    exfalso. apply Hc. reflexivity.
Qed.

Lemma empty_false (s : string) : empty s = false <-> s <> "".
Proof. destruct s; simpl; split; congruence. Qed.

Lemma push_words_inv input t : staged_ok t -> words_inv t -> words_inv (push input t).
Proof.
  intros Hst (Hraw & Htok & Hfl & Hpr). unfold push.
  assert (Hfirst : empty (stage_pair_ t).1 = false -> is_flag (stage_pair_ t).1 = true).
  { intros He. destruct Hst as [E|[Hk _]]; [rewrite E in He; discriminate|assumption]. }
  destruct (empty input) eqn:Hin.
  { destruct (empty (stage_pair_ t).1) eqn:He; cbn [negb].
    { split; [|split; [|split]]; assumption. }
    split; [|split; [|split]]; cbn; try assumption.
    intros f Hf. apply elem_of_union in Hf as [Hf|Hf]; [|auto].
    apply elem_of_singleton in Hf as ->. auto. }
  apply empty_false in Hin.
  pose proof (substitute_not_empty (idents_ t) input Hin) as Hw.
  set (w := substitute (idents_ t) input) in *.
  assert (Hraw' : Forall (fun w => w <> "") (raw_ t ++ [w])).
  { apply Forall_app. split; [assumption|]. constructor; [assumption|constructor]. }
  destruct (is_flag w) eqn:Hfw.
  { split; [|split; [|split]]; cbn; try assumption.
    intros f Hf. destruct (empty (stage_pair_ t).1) eqn:He; cbn [negb] in Hf; [auto|].
    apply elem_of_union in Hf as [Hf|Hf]; [|auto].
    apply elem_of_singleton in Hf as ->. auto. }
  destruct (empty (stage_pair_ t).1) eqn:He; cbn [negb].
  - split; [|split; [|split]]; cbn; try assumption.
    apply Forall_app. split; [assumption|].
    constructor; [split; assumption|constructor].
  - split; [|split; [|split]]; cbn; try assumption.
    intros k v Hkv. destruct (decide ((stage_pair_ t).1 = k)) as [<-|Hne].
    + rewrite lookup_insert_eq in Hkv. injection Hkv as Hv. rewrite <- Hv.
      split; [auto|split; assumption].
    + rewrite lookup_insert_ne in Hkv by assumption. eauto.
Qed.

Lemma pop_words_inv ndebug t t' :
  words_inv t -> token_pop ndebug t = Ret (true, t') -> words_inv t'.
Proof.
  intros (Hraw & Htok & Hfl & Hpr) Hpop.
  destruct (token_pop_true _ _ _ Hpop) as (x & Et & Er & Ep & Ef & _ & _).
  rewrite Et in Htok. rewrite Er in Hraw.
  unfold words_inv. rewrite Ep, Ef.
  inversion Htok; inversion Hraw; subst. split; [|split; [|split]]; assumption.
Qed.

Lemma built_words_inv t : built t -> words_inv t.
Proof.
  induction 1 as [idents|input t Hb IH|ndebug t t' Hb IH Hpop].
  - unfold words_inv; cbn. split; [constructor|]. split; [constructor|]. split.
    + intros f Hf. apply not_elem_of_empty in Hf. destruct Hf.
    + intros k v Hkv. rewrite lookup_empty in Hkv. discriminate.
  - apply push_words_inv; [apply (built_inv t Hb)|assumption].
  - eapply pop_words_inv; eassumption.
Qed.

Lemma push_flags_kept input t : flags_kept t -> flags_kept (push input t).
Proof.
  intros Hk. unfold push.
  destruct (empty input) eqn:Hin.
  { destruct (empty (stage_pair_ t).1) eqn:He; cbn [negb]; [assumption|].
    intros w Hw Hf. cbn in *. destruct (Hk w Hw Hf) as [H|[H|H]]; [left|right; left|left].
    - apply elem_of_union; now right.
    - assumption.
    - apply elem_of_union; left. apply elem_of_singleton. assumption. }
  set (w0 := substitute (idents_ t) input).
  destruct (is_flag w0) eqn:Hfw.
  { intros w Hw Hf. cbn in *. apply in_app_iff in Hw as [Hw|[<-|[]]]; [|now right; right].
    destruct (Hk w Hw Hf) as [H|[H|H]].
    - left. destruct (negb (empty (stage_pair_ t).1)); [apply elem_of_union; now right|assumption].
    - right; left; assumption.
    - destruct (empty (stage_pair_ t).1) eqn:He; cbn [negb].
      + apply empty_true in He. rewrite He in H. subst w. discriminate.
      + left. apply elem_of_union; left. apply elem_of_singleton. assumption. }
  destruct (empty (stage_pair_ t).1) eqn:He; cbn [negb].
  - intros w Hw Hf. cbn in *. apply in_app_iff in Hw as [Hw|[<-|[]]]; [|congruence].
    apply Hk; assumption.
  - intros w Hw Hf. cbn in *. apply in_app_iff in Hw as [Hw|[<-|[]]]; [|congruence].
    destruct (Hk w Hw Hf) as [H|[H|H]]; [now left| |].
    + right; left. destruct (decide ((stage_pair_ t).1 = w)) as [->|Hne].
      * rewrite lookup_insert_eq. eauto.
      * rewrite lookup_insert_ne by assumption. assumption.
    + right; left. subst w. rewrite lookup_insert_eq. eauto.
Qed.

Lemma pop_flags_kept ndebug t t' :
  flags_kept t -> token_pop ndebug t = Ret (true, t') -> flags_kept t'.
Proof.
  intros Hk Hpop.
  destruct (token_pop_true _ _ _ Hpop) as (x & Et & Er & Ep & Ef & Es & _).
  intros w Hw Hf. rewrite Ep, Ef, Es. apply Hk; [|assumption].
  rewrite Er. right. assumption.
Qed.

Lemma built_flags_kept t : built t -> flags_kept t.
Proof.
  induction 1 as [idents|input t Hb IH|ndebug t t' Hb IH Hpop].
  - intros w [].
  - apply push_flags_kept. assumption.
  - eapply pop_flags_kept; eassumption.
Qed.

Lemma push_flush_stage t : (stage_pair_ (push "" t)).1 = "".
Proof.
  unfold push. cbn [empty].
  destruct (empty (stage_pair_ t).1) eqn:He; cbn [negb]; [|reflexivity].
  apply empty_true. assumption.
Qed.

Lemma tokenize_stage fuel in_ out n t :
  tokenize fuel in_ out = Ret (n, t) -> (stage_pair_ t).1 = "".
Proof.
  unfold tokenize.
  destruct (tokenize_loop fuel in_ 0 0 out) as [[[src start] o]| | |]; try discriminate.
  rewrite bind_Ret. intros H. injection H as _ <-. apply push_flush_stage.
Qed.

End words_inv_facts.

(** X8. In every token list that the code builds, a positional token and
    the value of a pair are never empty and never begin with [-], a flag
    and the key of a pair always begin with [-], and no raw word is
    empty. *)
Theorem built_words_are_sorted (t : cmd_tokens_t) :
  built t ->
  Forall (fun w => w <> "") (raw_ t) /\
  Forall (fun w => w <> "" /\ cmd_tokens_t.is_flag w = false) (tokens_ t) /\
  (forall f, cmd_tokens_t.flag_get f t = true -> cmd_tokens_t.is_flag f = true) /\
  (forall k v, cmd_tokens_t.pair_get k t = Some v ->
     cmd_tokens_t.is_flag k = true /\ v <> "" /\ cmd_tokens_t.is_flag v = false).
Proof.
  intros Hb. destruct (built_words_inv t Hb) as (Hraw & Htok & Hfl & Hpr).
  split; [assumption|]. split; [assumption|]. split.
  - intros f Hf. apply Hfl. unfold cmd_tokens_t.flag_get in Hf.
    apply bool_decide_eq_true in Hf. assumption.
  - intros k v Hkv. apply (Hpr k v Hkv).
Qed.

Lemma built_words_are_sorted_witness :
  Forall (fun w => w <> "" /\ cmd_tokens_t.is_flag w = false) (tokens_ demo.pushed).
Proof.
  destruct (built_words_are_sorted demo.pushed) as (_ & H & _).
  - repeat apply built_push. apply built_new.
  - exact H.
Defined.

(** X9. After [tokenize] on a fresh token list no flag name is left
    staged, and every raw word that begins with [-] is found by
    [flag_get] or by [pair_get]: no switch the user typed is lost. *)
Theorem tokenize_keeps_every_flag fuel (in_ : string) idents n (t : cmd_tokens_t) :
  tokenize fuel in_ (cmd_tokens_t.new idents) = Ret (n, t) ->
  (stage_pair_ t).1 = "" /\
  forall w, In w (raw_ t) -> cmd_tokens_t.is_flag w = true ->
    cmd_tokens_t.flag_get w t = true \/ is_Some (cmd_tokens_t.pair_get w t).
Proof.
  intros Htok. pose proof (tokenize_stage _ _ _ _ _ Htok) as Hst.
  split; [assumption|]. intros w Hw Hf.
  destruct (tokenize_built _ _ _ _ _ (built_new idents) Htok) as [Hb _].
  destruct (built_flags_kept t Hb w Hw Hf) as [H|[H|H]].
  - left. unfold cmd_tokens_t.flag_get. apply bool_decide_eq_true. assumption.
  - right. assumption.
  - rewrite Hst in H. subst w. discriminate.
Qed.

Lemma tokenize_keeps_every_flag_witness :
  cmd_tokens_t.flag_get "-x" (cmd_tokens_t.push "" demo.pushed) = true \/
  is_Some (cmd_tokens_t.pair_get "-x" (cmd_tokens_t.push "" demo.pushed)).
Proof.
  destruct (tokenize_keeps_every_flag 20 "bar -v foo -x" None 1
              (cmd_tokens_t.push "" demo.pushed)) as [_ H].
  - vm_compute. reflexivity.
  - apply (H "-x"); [|reflexivity]. simpl. tauto.
Defined.

(** ** [strtoll] on decimal numbers *)

Section strtoll_decimal.
Import cmd_util_t.
Import Decimal.
Import DecimalPos.

Lemma u64_step (a k : Z) : u64 (u64 (u64 a * 10) + k) = u64 (a * 10 + k).
Proof.
  unfold u64. rewrite Zplus_mod_idemp_l, <- Zplus_mod_idemp_l.
  rewrite Zmult_mod_idemp_l, Zplus_mod_idemp_l. reflexivity.
Qed.

(** The value of the digits [d] read after the digits that gave [a]. *)
Lemma of_lu_rev_digit (d : uint) (k : N) (dk : uint -> uint) :
  Unsigned.of_lu (dk Nil) = k -> (forall d', revapp (dk d') Nil = revapp d' (dk Nil)) ->
  Unsigned.of_lu (rev (dk d)) = (Unsigned.of_lu (rev d) + k * 10 ^ Unsigned.usize d)%N.
Proof.
  intros Hk Hrev. unfold rev. rewrite Hrev, Unsigned.of_lu_revapp, Hk. reflexivity.
Qed.

Lemma strtoll_scan_digits (d : uint) :
  forall a, strtoll_scan 10 (NilEmpty.string_of_uint d) (u64 a) =
    ScanDone (u64 (Z.of_N (Unsigned.of_lu (rev d)) + a * 10 ^ Z.of_N (Unsigned.usize d))).
Proof.
  induction d as [|d IH|d IH|d IH|d IH|d IH|d IH|d IH|d IH|d IH|d IH]; intros a;
    [simpl; f_equal; f_equal; lia|..];
    cbn [NilEmpty.string_of_uint strtoll_scan];
    match goal with
    | |- context [in_range "0" "9" ?c] =>
        replace (in_range "0" "9" c) with true by reflexivity; cbv iota;
        replace (code c - code "0") with (code c - 48) by reflexivity
    end;
    rewrite u64_step, IH; f_equal; f_equal;
    match goal with
    | |- context [rev (?dk d)] =>
        rewrite (of_lu_rev_digit d _ dk eq_refl (fun _ => eq_refl))
    end;
    cbn [Unsigned.usize]; rewrite N2Z.inj_add, N2Z.inj_mul, N2Z.inj_pow, N2Z.inj_succ;
    rewrite Z.pow_succ_r by lia; simpl Z.of_N;
    match goal with
    | |- context [code ?c] => let v := eval vm_compute in (code c) in change (code c) with v
    end; ring.
Qed.


Lemma strtoll_digits_shape (d : uint) (out : Z) :
  strtoll (NilEmpty.string_of_uint d) out =
    strtoll_rest 10 false (NilEmpty.string_of_uint d) out.
Proof.
  destruct d as [|d|d|d|d|d|d|d|d|d|d]; try reflexivity.
  destruct d; reflexivity.
Qed.

Lemma strtoll_neg_digits_shape (d : uint) (out : Z) :
  strtoll (String "-" (NilEmpty.string_of_uint d)) out =
    strtoll_rest 10 true (NilEmpty.string_of_uint d) out.
Proof.
  destruct d as [|d|d|d|d|d|d|d|d|d|d]; try reflexivity.
  destruct d; reflexivity.
Qed.




Lemma to_string_digits (val : Z) :
  to_string val = NilEmpty.string_of_uint (N.to_uint (Z.to_N val)).
Proof.
  unfold to_string.
  assert (H : N.to_uint (Z.to_N val) <> Nil).
  { destruct (Z.to_N val) as [|p]; [discriminate|apply Unsigned.to_uint_nonnil]. }
  destruct (N.to_uint (Z.to_N val)); [contradiction|reflexivity..].
Qed.

Lemma strtoll_rest_digits (neg : bool) (d : uint) (out : Z) :
  strtoll_rest 10 neg (NilEmpty.string_of_uint d) out =
    (true, u64 (Z.of_N (N.of_uint d)), neg).
Proof.
  unfold strtoll_rest. change 0 with (u64 0) at 1.
  rewrite strtoll_scan_digits. unfold N.of_uint. rewrite Unsigned.of_uint_alt.
  rewrite Z.mul_0_l, Z.add_0_r. reflexivity.
Qed.

Lemma strtoll_scan_hex_zeroed (s : string) :
  forall accum, strtoll_scan 16 s accum = strtoll_scan 16 (hex_zeroed s) accum.
Proof.
  induction s as [|ch s IH]; intros accum; [reflexivity|].
  cbn [hex_zeroed]. unfold is_hex.
  destruct (in_range "0" "9" ch) eqn:E1.
  { cbn [orb strtoll_scan]. rewrite E1. apply IH. }
  destruct (in_range "a" "f" ch) eqn:E2.
  { cbn [orb strtoll_scan]. rewrite E1, E2. change (Z.eqb 16 16) with true.
    cbv iota. apply IH. }
  destruct (in_range "A" "F" ch) eqn:E3.
  { cbn [orb strtoll_scan]. rewrite E1, E2, E3. change (Z.eqb 16 16) with true.
    cbv iota. apply IH. }
  cbn [orb strtoll_scan]. rewrite E1, E2, E3. change (Z.eqb 16 16) with true.
  change (in_range "0" "9" "0") with true. cbv iota.
  rewrite IH. f_equal.
  change (code "0" - code "0") with 0. rewrite Z.add_0_r.
  unfold u64. rewrite Z.mod_mod by lia. reflexivity.
Qed.

Lemma get_u64_digits (v : Z) :
  0 <= v < 2 ^ 64 -> cmd_token_t.get_u64 (to_string v) = Some v.
Proof.
  intros Hv. unfold cmd_token_t.get_u64.
  rewrite to_string_digits, strtoll_digits_shape, strtoll_rest_digits.
  rewrite DecimalN.Unsigned.of_to, Z2N.id by lia.
  unfold u64. rewrite Z.mod_small by lia. reflexivity.
Qed.

End strtoll_decimal.


(** X11. A value written by [std::to_string], as identifier substitution
    writes it, is read back by [cmd_token_t::get]: for every value of 64
    bits the token [to_string v] parses to [v]. *)
Theorem get_u64_to_string (v : Z) :
  0 <= v < 2 ^ 64 -> cmd_token_t.get_u64 (to_string v) = Some v.
Proof. apply get_u64_digits. Qed.

Lemma get_u64_to_string_witness :
  cmd_token_t.get_u64 (to_string 18446744073709551615) = Some 18446744073709551615.
Proof. apply (get_u64_to_string 18446744073709551615). lia. Defined.

(** X12. With a leading [-] the same digits are read as the negative
    number, down to the least value of 64 signed bits. *)
Theorem get_i64_negative (v : Z) :
  0 <= v <= 2 ^ 63 ->
  cmd_token_t.get_i64 (String "-" (to_string v)) = Some (- v).
Proof.
  intros Hv. unfold cmd_token_t.get_i64, cmd_token_t.get_u64.
  rewrite to_string_digits, strtoll_neg_digits_shape, strtoll_rest_digits.
  rewrite DecimalN.Unsigned.of_to, Z2N.id by lia.
  assert (Hu : cmd_util_t.u64 v = v).
  { unfold cmd_util_t.u64. apply Z.mod_small. lia. }
  rewrite Hu. cbn [fmap option_fmap option_map]. f_equal.
  unfold cmd_token_t.to_i64, cmd_util_t.u64.
  destruct (Z.eq_dec v 0) as [->|Hnz]; [reflexivity|].
  assert (Hm : (0 - v) mod 2 ^ 64 = 2 ^ 64 - v).
  { rewrite <- (Z.mod_small (2 ^ 64 - v) (2 ^ 64)) by lia.
    replace (0 - v) with (2 ^ 64 - v + (-1) * 2 ^ 64) by lia.
    apply Z.mod_add. lia. }
  rewrite Hm. destruct (Z.ltb_spec (2 ^ 64 - v) (2 ^ 63)); lia.
Qed.

Lemma get_i64_negative_witness :
  cmd_token_t.get_i64 "-9223372036854775808" = Some (-9223372036854775808).
Proof. apply (get_i64_negative 9223372036854775808). lia. Defined.

(** X13. After the prefix [0x] no character is refused: one that is not
    a hex digit is read as the digit 0, so the parse always reports
    success, with the value of the string where such characters are
    replaced by [0]. *)
Theorem strtoll_hex_reads_garbage_as_zero (rest : string) (out : Z) :
  cmd_util_t.strtoll ("0x" ++ rest) out =
    cmd_util_t.strtoll ("0x" ++ hex_zeroed rest) out /\
  (cmd_util_t.strtoll ("0x" ++ rest) out).1.1 = true.
Proof.
  split; [|apply strtoll_hex_reports_success].
  change ("0x" ++ rest) with (String "0" (String "x" rest)).
  change ("0x" ++ hex_zeroed rest) with (String "0" (String "x" (hex_zeroed rest))).
  unfold cmd_util_t.strtoll. cbv iota beta.
  rewrite strtoll_scan_hex_zeroed. reflexivity.
Qed.



(** ** [levenshtein], away from the pair of empty strings *)

Section levenshtein_more.

Lemma lev_zero (s : list ascii) : forall t, lev s t = 0%nat -> s = t.
Proof.
  induction s as [|a s IH]; intros [|b t]; try (simpl; congruence).
  rewrite lev_cons_cons. unfold min3. intros H.
  assert (H1 : lev s t = 0%nat) by lia.
  assert (H2 : cost a b = 0%nat) by lia.
  unfold cost in H2. destruct (Ascii.eqb_spec a b); [|discriminate].
  f_equal; [assumption|apply IH; assumption].
Qed.

Lemma edit_distance_zero (a b : string) : edit_distance a b = 0%nat -> a = b.
Proof.
  unfold edit_distance, chars. intros H. apply lev_zero in H.
  apply (f_equal (@rev ascii)) in H. rewrite !rev_involutive in H.
  apply (f_equal string_of_list_ascii) in H.
  rewrite !string_of_list_ascii_of_string in H. assumption.
Qed.

End levenshtein_more.

(** X15. For two strings that are not both empty, and whose lengths 32
    bits can count, [levenshtein] returns their edit distance: the least
    number of insertions, deletions and replacements of one character that
    turn the one into the other. *)
Theorem levenshtein_is_edit_distance (s1 s2 : string) :
  s1 <> "" \/ s2 <> "" ->
  Z.of_nat (String.length s1 + String.length s2) + 1 < 2 ^ 32 ->
  cmd_util_t.levenshtein s1 s2 = Ret (Z.of_nat (edit_distance s1 s2)).
Proof. intros Hne Hb. apply levenshtein_value; assumption. Qed.

Lemma levenshtein_is_edit_distance_witness :
  cmd_util_t.levenshtein "kitten" "sitting" = Ret (Z.of_nat (edit_distance "kitten" "sitting")).
Proof.
  apply (levenshtein_is_edit_distance "kitten" "sitting").
  - left. discriminate.
  - vm_compute. reflexivity.
Defined.

(** X16. Under the same conditions the answer is 0 exactly when the two
    strings are equal. *)
Theorem levenshtein_zero_iff_equal (a b : string) :
  a <> "" \/ b <> "" ->
  Z.of_nat (String.length a + String.length b) + 1 < 2 ^ 32 ->
  cmd_util_t.levenshtein a b = Ret 0 <-> a = b.
Proof.
  intros Hne Hb. rewrite levenshtein_value by assumption. split.
  - intros H. injection H as H. apply edit_distance_zero. lia.
  - intros ->. rewrite edit_distance_refl. reflexivity.
Qed.

Lemma levenshtein_zero_iff_equal_witness :
  cmd_util_t.levenshtein "stop" "stop" = Ret 0 <-> "stop" = "stop".
Proof.
  apply (levenshtein_zero_iff_equal "stop" "stop").
  - left. discriminate.
  - vm_compute. reflexivity.
Defined.

(** X17. Under the same conditions the answer does not depend on the
    order of the two arguments. *)
Theorem levenshtein_symmetric (a b : string) :
  a <> "" \/ b <> "" ->
  Z.of_nat (String.length a + String.length b) + 1 < 2 ^ 32 ->
  cmd_util_t.levenshtein a b = cmd_util_t.levenshtein b a.
Proof. intros Hne Hb. apply levenshtein_sym; assumption. Qed.

Lemma levenshtein_symmetric_witness :
  cmd_util_t.levenshtein "" "stop" = cmd_util_t.levenshtein "stop" "".
Proof.
  apply (levenshtein_symmetric "" "stop").
  - right. discriminate.
  - vm_compute. reflexivity.
Defined.

(** X18. For three strings that are not empty the answers satisfy the
    triangle inequality. *)
Theorem levenshtein_triangle_inequality (a b c : string) (ac ab bc : Z) :
  a <> "" -> b <> "" -> c <> "" ->
  Z.of_nat (String.length a + String.length b) + 1 < 2 ^ 32 ->
  Z.of_nat (String.length b + String.length c) + 1 < 2 ^ 32 ->
  Z.of_nat (String.length a + String.length c) + 1 < 2 ^ 32 ->
  cmd_util_t.levenshtein a c = Ret ac ->
  cmd_util_t.levenshtein a b = Ret ab ->
  cmd_util_t.levenshtein b c = Ret bc ->
  ac <= ab + bc.
Proof.
  intros Ha Hb Hc Hab Hbc Hac Eac Eab Ebc.
  destruct (levenshtein_triangle a b c Ha Hb Hc Hab Hbc Hac)
    as (ac' & ab' & bc' & Eac' & Eab' & Ebc' & Hle).
  congruence.
Qed.

Lemma levenshtein_triangle_inequality_witness : 2 <= 3 + 1.
Proof.
  apply (levenshtein_triangle_inequality "stop" "start" "star");
    try discriminate; vm_compute; reflexivity.
Defined.

(** ** The default [on_execute] *)

Section default_handler.
Import cmd_t.

Lemma fuzzy_list_filter (tok : string) (sub : list cmd_t.t) :
  tok <> "" ->
  Forall (fun c => Z.of_nat (String.length (name_ c) + String.length tok) + 1 < 2 ^ 32) sub ->
  forall acc, fuzzy_list sub tok acc = Ret (acc ++ suggestions sub tok)%list.
Proof.
  intros Hne. induction 1 as [|c sub Hc _ IH]; intros acc; cbn [fuzzy_list].
  - unfold suggestions. simpl. rewrite app_nil_r. reflexivity.
  - rewrite levenshtein_value by auto. rewrite bind_Ret, IH.
    unfold suggestions, FUZZYNESS. cbn [List.filter].
    destruct (Z.ltb_spec (Z.of_nat (edit_distance (name_ c) tok)) 3) as [Hlt|Hge];
      destruct (Nat.ltb_spec (edit_distance (name_ c) tok) 3) as [Hlt'|Hge']; try lia.
    + rewrite <- app_assoc. reflexivity.
    + reflexivity.
Qed.


End default_handler.

(** X19. The loop of the default [on_execute] collects the sub commands to
    suggest: for a word that is not empty they are the sub commands whose
    name is at an edit distance below 3 from the word, in the order of the
    list. *)
Theorem fuzzy_list_suggestions (sub : list cmd_t.t) (tok : string) :
  tok <> "" ->
  Forall (fun c => Z.of_nat (String.length (cmd_t.name_ c) + String.length tok) + 1 < 2 ^ 32)
    sub ->
  cmd_t.fuzzy_list sub tok [] = Ret (suggestions sub tok).
Proof. intros Hne Hb. apply (fuzzy_list_filter tok sub Hne Hb []). Qed.

Lemma fuzzy_list_suggestions_witness :
  cmd_t.fuzzy_list (cmd_parser_t.sub_ (demo.parser [])) "stat" [] =
    Ret (suggestions (cmd_parser_t.sub_ (demo.parser [])) "stat").
Proof.
  apply (fuzzy_list_suggestions (cmd_parser_t.sub_ (demo.parser [])) "stat").
  - discriminate.
  - repeat constructor.
Defined.



(** ** Identifiers and the getters *)

(** X21. An identifier pushed as [$name] is read back as its value: for
    a name without NUL, when the list holds no positional token and no
    flag is staged, [push] followed by [get] of a [uint64_t] answers the
    value that [idents] gives to [name], and takes the token off the
    list. *)
Theorem get_uint64_reads_identifier (t : cmd_tokens_t) (ids : cmd_idents_t)
    (name : string) (v : Z) :
  no_nul name = true ->
  idents_ t = Some ids -> ids !! name = Some v -> 0 <= v < 2 ^ 64 ->
  (stage_pair_ t).1 = "" -> tokens_ t = [] ->
  exists t',
    cmd_tokens_t.get_uint64 (cmd_tokens_t.push (String "$" name) t) = Some (v, t') /\
    tokens_ t' = [] /\ raw_ t' = (raw_ t ++ [to_string v])%list.
Proof.
  intros Hnul Hid Hv Hr Hst Htok.
  assert (Hp : cmd_tokens_t.push (String "$" name) t =
               {| idents_ := idents_ t; raw_ := (raw_ t ++ [to_string v])%list;
                  stage_pair_ := stage_pair_ t;
                  tokens_ := (tokens_ t ++ [to_string v])%list;
                  pairs_ := pairs_ t; flags_ := flags_ t |}).
  { unfold cmd_tokens_t.push. cbn [cmd_tokens_t.empty].
    rewrite Hid. cbn [cmd_tokens_t.substitute].
    rewrite (c_str_no_nul name Hnul), Hv.
    rewrite to_string_not_flag, Hst. reflexivity. }
  rewrite Hp, Htok. unfold cmd_tokens_t.get_uint64. cbn [tokens_ app].
  rewrite get_u64_digits by assumption.
  eexists. split; [reflexivity|]. split; reflexivity.
Qed.

Lemma get_uint64_reads_identifier_witness :
  exists t',
    cmd_tokens_t.get_uint64
      (cmd_tokens_t.push "$x" (cmd_tokens_t.new (Some {[ "x" := 42 ]}))) = Some (42, t') /\
    tokens_ t' = [] /\ raw_ t' = ["42"].
Proof.
  apply (get_uint64_reads_identifier (cmd_tokens_t.new (Some {[ "x" := 42 ]}))
           {[ "x" := 42 ]} "x" 42); try reflexivity. lia.
Defined.

(** ** [execute] on a sequence *)

Section sequence_facts.
Import cmd_parser_t.

Lemma split_on_not_nil (c : ascii) (s : string) : split_on c s <> [].
Proof.
  induction s as [|d s IH]; simpl; [discriminate|].
  destruct (Ascii.eqb d c); [discriminate|].
  destruct (split_on c s); discriminate.
Qed.

Lemma split_on_app (c : ascii) (a b : string) :
  split_on c (a ++ String c b) = (split_on c a ++ split_on c b)%list.
Proof.
  induction a as [|d a IH].
  - rewrite append_nil. simpl. rewrite Ascii.eqb_refl. reflexivity.
  - rewrite append_cons. simpl. destruct (Ascii.eqb d c).
    + rewrite IH. reflexivity.
    + rewrite IH. pose proof (split_on_not_nil c a).
      destruct (split_on c a); [contradiction|reflexivity].
Qed.

Lemma run_statements_app ndebug fuel (l1 l2 : list string) :
  forall p out,
    run_statements ndebug fuel (l1 ++ l2) p out =
      ('(ok, p', out') ← run_statements ndebug fuel l1 p out;
       if ok : bool then run_statements ndebug fuel l2 p' out'
       else Ret (false, p', out')).
Proof.
  induction l1 as [|cmd l1 IH]; intros p out.
  - simpl. reflexivity.
  - cbn [app run_statements]. destruct (cmd_tokens_t.empty cmd); [apply IH|].
    destruct (execute_imp ndebug fuel p cmd out) as [[[ok p'] out']| | |];
      try reflexivity.
    rewrite !bind_Ret. destruct ok; [apply IH|reflexivity].
Qed.

Lemma execute_run ndebug fuel p expr out :
  execute ndebug fuel p expr out = run_statements ndebug fuel (split_on ";" expr) p out.
Proof.
  unfold execute.
  apply (execute_loop_split ndebug fuel (S (String.length expr)) "" expr p out). lia.
Qed.

Lemma execute_imp_history ndebug fuel :
  forall p expr out b p' out',
    execute_imp ndebug fuel p expr out = Ret (b, p', out') ->
    exists more, history_ p' = (history_ p ++ expr :: more)%list.
Proof.
  induction fuel as [|fuel IH]; intros p expr out b p' out'; [discriminate|].
  rewrite execute_imp_S.
  destruct (last_cmd p) as [prev| | |]; try discriminate.
  rewrite bind_Ret. cbv zeta.
  destruct (tokenize fuel (c_str expr)
              (cmd_tokens_t.new (Some (idents_ (history_push_back expr p)))))
    as [[n tokens]| | |]; try discriminate.
  rewrite bind_Ret. destruct (Nat.eqb n 0).
  - rewrite last_cmd_push, bind_Ret.
    destruct (negb (cmd_tokens_t.empty expr)).
    + intros H. apply IH in H as [more H]. exists (prev :: more).
      rewrite H. unfold history_push_back. simpl. rewrite <- app_assoc. reflexivity.
    + intros H. injection H as _ <- _. exists []. reflexivity.
  - destruct (resolve ndebug fuel (history_push_back expr p) tokens out)
      as [[[cmd toks] o]| | |]; try discriminate.
    rewrite bind_Ret. destruct (dispatch cmd toks o).
    intros H. injection H as _ <- _. exists []. reflexivity.
Qed.

Lemma run_statements_history ndebug fuel (segs : list string) :
  forall p out b p' out',
    run_statements ndebug fuel segs p out = Ret (b, p', out') ->
    exists more, history_ p' = (history_ p ++ more)%list.
Proof.
  induction segs as [|cmd segs IH]; intros p out b p' out'; cbn [run_statements].
  - intros H. injection H as _ <- _. exists []. rewrite app_nil_r. reflexivity.
  - destruct (cmd_tokens_t.empty cmd); [apply IH|].
    destruct (execute_imp ndebug fuel p cmd out) as [[[ok p1] out1]| | |] eqn:E;
      try discriminate.
    rewrite bind_Ret. apply execute_imp_history in E as [m1 E].
    destruct ok.
    + intros H. apply IH in H as [m2 H]. exists ((cmd :: m1) ++ m2)%list.
      rewrite H, E, <- app_assoc. reflexivity.
    + intros H. injection H as _ <- _. eauto.
Qed.

End sequence_facts.

(** X22. [execute] on [a;b] is [execute] on [a] followed, when that
    answers [true], by [execute] on [b] from the state and the output it
    leaves; when it answers [false] the part [b] is not looked at. *)
Theorem execute_sequence ndebug fuel (p : cmd_parser_t.t) (a b : string)
    (out : list event) :
  cmd_parser_t.execute ndebug fuel p (a ++ String ";" b) out =
    ('(ok, p', out') ← cmd_parser_t.execute ndebug fuel p a out;
     if ok : bool then cmd_parser_t.execute ndebug fuel p' b out'
     else Ret (false, p', out')).
Proof.
  rewrite !execute_run, split_on_app, run_statements_app.
  destruct (run_statements ndebug fuel (split_on ";" a) p out) as [[[ok p'] out']| | |];
    try reflexivity.
  rewrite !bind_Ret. destruct ok; [apply eq_sym, execute_run|reflexivity].
Qed.

(** X23. The history only grows: a statement given to [execute_imp] is
    recorded after the entries that were there, whether it succeeds, fails
    or is blank, and [execute] leaves the earlier entries in place. *)
Theorem history_only_grows ndebug fuel (p p' : cmd_parser_t.t) (expr : string)
    (out out' : list event) (b : bool) :
  (cmd_parser_t.execute_imp ndebug fuel p expr out = Ret (b, p', out') ->
   exists more,
     cmd_parser_t.history_ p' = (cmd_parser_t.history_ p ++ expr :: more)%list) /\
  (cmd_parser_t.execute ndebug fuel p expr out = Ret (b, p', out') ->
   exists more,
     cmd_parser_t.history_ p' = (cmd_parser_t.history_ p ++ more)%list).
Proof.
  split.
  - apply execute_imp_history.
  - rewrite execute_run. apply run_statements_history.
Qed.

Lemma history_only_grows_witness :
  exists more,
    cmd_parser_t.history_ (demo.parser ["status"; "fail"]) = (["status"] ++ "fail" :: more)%list.
Proof.
  apply (history_only_grows true 10 (demo.parser ["status"]) (demo.parser ["status"; "fail"])
           "fail" [] [Println "execute fail"] false).
  vm_compute. reflexivity.
Defined.

(** ** The alias table *)

Section alias_facts.
Import cmd_parser_t.

Variable is_cmd : cmd_t.t -> bool.

Let erase (m : gmap string cmd_t.t) (e : string * cmd_t.t) : gmap string cmd_t.t :=
  let '(alias, c) := e in if is_cmd c then delete alias m else m.

Lemma erase_absent (l : list (string * cmd_t.t)) :
  forall m k, m !! k = None -> fold_left erase l m !! k = None.
Proof.
  induction l as [|[a c] l IH]; intros m k Hk; [assumption|].
  cbn [fold_left erase]. apply IH. destruct (is_cmd c); [|assumption].
  destruct (decide (a = k)) as [->|Hne];
    [apply lookup_delete_eq|rewrite lookup_delete_ne; assumption].
Qed.

Lemma erase_hit (l : list (string * cmd_t.t)) :
  forall m k c, In (k, c) l -> is_cmd c = true -> fold_left erase l m !! k = None.
Proof.
  induction l as [|[a c'] l IH]; intros m k c Hin Hc; [destruct Hin|].
  cbn [fold_left erase]. destruct Hin as [Heq|Hin].
  - injection Heq as -> ->. rewrite Hc. apply erase_absent, lookup_delete_eq.
  - eapply IH; eassumption.
Qed.

Lemma erase_miss (l : list (string * cmd_t.t)) :
  forall m k, (forall c, In (k, c) l -> is_cmd c = false) ->
    fold_left erase l m !! k = m !! k.
Proof.
  induction l as [|[a c'] l IH]; intros m k Hall; [reflexivity|].
  cbn [fold_left erase]. rewrite IH by (intros c Hc; apply Hall; now right).
  destruct (is_cmd c') eqn:Hc; [|reflexivity].
  apply lookup_delete_ne. intros ->.
  rewrite (Hall c') in Hc by now left. discriminate.
Qed.

Lemma alias_remove_cmd_lookup (p : t) (alias : string) :
  alias_find (alias_remove_cmd p is_cmd).2 alias =
    match alias_find p alias with
    | Some c => if is_cmd c then None else Some c
    | None => None
    end.
Proof.
  unfold alias_remove_cmd, alias_find, with_alias. cbn [snd alias_].
  change (fun (m : gmap string cmd_t.t) '(alias, c) =>
            if is_cmd c then delete alias m else m) with erase.
  destruct (alias_ p !! alias) as [c|] eqn:E.
  - destruct (is_cmd c) eqn:Hc.
    + apply (erase_hit _ _ _ c); [|assumption].
      apply list_elem_of_In, elem_of_map_to_list. assumption.
    + rewrite erase_miss; [assumption|].
      intros c' Hin. apply list_elem_of_In, elem_of_map_to_list in Hin.
      congruence.
  - apply erase_absent. assumption.
Qed.

End alias_facts.

(** X24. An alias that is added is found, the other names are found as
    before, and [alias_remove] by name takes exactly that entry away: it
    answers [true] the first time and [false] when asked again. *)
Theorem alias_add_find_remove ndebug (p : cmd_parser_t.t) (cmd : cmd_t.t) (alias : string) :
  alias <> "" ->
  exists p1 p2,
    cmd_parser_t.alias_add ndebug p cmd alias = Ret (true, p1) /\
    cmd_parser_t.alias_find p1 alias = Some cmd /\
    (forall other, other <> alias ->
       cmd_parser_t.alias_find p1 other = cmd_parser_t.alias_find p other) /\
    cmd_parser_t.alias_remove p1 alias = (true, p2) /\
    cmd_parser_t.alias_find p2 alias = None /\
    (forall other, other <> alias ->
       cmd_parser_t.alias_find p2 other = cmd_parser_t.alias_find p other) /\
    cmd_parser_t.alias_remove p2 alias = (false, p2).
Proof.
  intros Hne.
  exists (cmd_parser_t.with_alias p (<[alias := cmd]> (cmd_parser_t.alias_ p))).
  exists (cmd_parser_t.with_alias p
            (delete alias (<[alias := cmd]> (cmd_parser_t.alias_ p)))).
  unfold cmd_parser_t.alias_add, cmd_parser_t.alias_find, cmd_parser_t.alias_remove,
    cmd_parser_t.with_alias.
  cbn [cmd_parser_t.alias_ cmd_parser_t.sub_ cmd_parser_t.history_ cmd_parser_t.idents_].
  destruct alias as [|a alias]; [contradiction|]. cbn [cmd_tokens_t.empty andb].
  rewrite !lookup_insert_eq, !lookup_delete_eq.
  split; [reflexivity|]. split; [reflexivity|]. split.
  { intros other Ho. apply lookup_insert_ne. congruence. }
  split; [reflexivity|]. split; [reflexivity|]. split; [|reflexivity].
  intros other Ho. rewrite lookup_delete_ne, lookup_insert_ne by congruence. reflexivity.
Qed.

Lemma alias_add_find_remove_witness :
  exists p1 p2,
    cmd_parser_t.alias_add false (demo.parser []) demo.start "go" = Ret (true, p1) /\
    cmd_parser_t.alias_find p1 "go" = Some demo.start /\
    (forall other, other <> "go" ->
       cmd_parser_t.alias_find p1 other = cmd_parser_t.alias_find (demo.parser []) other) /\
    cmd_parser_t.alias_remove p1 "go" = (true, p2) /\
    cmd_parser_t.alias_find p2 "go" = None /\
    (forall other, other <> "go" ->
       cmd_parser_t.alias_find p2 other = cmd_parser_t.alias_find (demo.parser []) other) /\
    cmd_parser_t.alias_remove p2 "go" = (false, p2).
Proof.
  apply (alias_add_find_remove false (demo.parser []) demo.start "go"). discriminate.
Defined.

(** X25. [alias_remove] by command answers [true] and takes away every
    alias of that command and no other: afterwards a name is found exactly
    when it was found before for a different command. *)
Theorem alias_remove_cmd_removes_all (p : cmd_parser_t.t) (is_cmd : cmd_t.t -> bool)
    (alias : string) :
  (cmd_parser_t.alias_remove_cmd p is_cmd).1 = true /\
  cmd_parser_t.alias_find (cmd_parser_t.alias_remove_cmd p is_cmd).2 alias =
    match cmd_parser_t.alias_find p alias with
    | Some c => if is_cmd c then None else Some c
    | None => None
    end.
Proof. split; [reflexivity|apply alias_remove_cmd_lookup]. Qed.

(** ** More on the dispatcher *)

Section dispatcher_more.
Import cmd_parser_t.









(** The two statements call for each other. *)
Lemma blank_pair_never_returns ndebug ids fuel :
  forall p a b out, idents_ p = ids -> blank ids a -> blank ids b ->
    last (history_ p) = Some b ->
    execute_imp ndebug fuel p a out = Timeout.
Proof.
  induction fuel as [|fuel IH]; intros p a b out Hids Ha Hb Hlast; [reflexivity|].
  rewrite execute_imp_S, (last_cmd_Some _ _ Hlast), bind_Ret. cbv zeta.
  change (idents_ (history_push_back a p)) with (idents_ p). rewrite Hids.
  destruct (tokenize_outcome fuel (c_str a) (cmd_tokens_t.new (Some ids)))
    as [->|(n & t & E)]; [reflexivity|].
  rewrite E, bind_Ret.
  destruct Ha as (Hane & fa & ta & Ea).
  apply (tokenize_mono _ _ (fuel + fa)) in E; [|lia].
  apply (tokenize_mono _ _ (fuel + fa)) in Ea; [|lia].
  rewrite E in Ea. injection Ea as -> ->.
  cbn [Nat.eqb]. rewrite last_cmd_push, bind_Ret.
  destruct a as [|c a]; [contradiction|]. cbn [cmd_tokens_t.empty negb].
  apply (IH _ _ (String c a)); try assumption.
  - split; [discriminate|]. eauto.
  - unfold history_push_back; simpl. apply last_snoc.
Qed.

End dispatcher_more.

Section plain_word_facts.

Lemma tokenize_plain_word (w : string) (ids : cmd_idents_t) (fuel : nat) :
  plain_word w -> cmd_tokens_t.is_flag w = false ->
  cmd_tokens_t.substitute (Some ids) w = w ->
  (String.length w < fuel)%nat ->
  tokenize fuel w (cmd_tokens_t.new (Some ids)) =
    Ret (1%nat,
         {| idents_ := Some ids; raw_ := [w]; stage_pair_ := ("", "");
            tokens_ := [w]; pairs_ := ∅; flags_ := ∅ |}).
Proof.
  intros (Hne & Hns & Hnt) Hfl Hsub Hfuel.
  apply (tokenize_mono w (S (String.length w))); [|lia].
  rewrite tokenize_words by assumption.
  assert (Hw : pushed_words false "" w = [w]).
  { rewrite <- (append_empty_r w) at 1.
    rewrite pushed_words_word by assumption. rewrite append_nil.
    destruct w; [contradiction|reflexivity]. }
  rewrite Hw. unfold pushes. cbn [fold_left].
  assert (Hp : cmd_tokens_t.push w (cmd_tokens_t.new (Some ids)) =
               {| idents_ := Some ids; raw_ := [w]; stage_pair_ := ("", "");
                  tokens_ := [w]; pairs_ := ∅; flags_ := ∅ |}).
  { unfold cmd_tokens_t.push, cmd_tokens_t.new. cbn [idents_ stage_pair_ fst snd raw_ tokens_].
    destruct w as [|c w]; [contradiction|]. cbn [cmd_tokens_t.empty].
    rewrite Hsub, Hfl. reflexivity. }
  rewrite Hp. reflexivity.
Qed.

End plain_word_facts.

(** X26. An alias can be used as a statement: after [alias_add], a
    statement that is the alias alone runs [on_execute] of the command it
    names, with an empty token list, whatever the root commands are. The
    alias has to be a word that the tokenizer leaves whole: not empty,
    without NUL, space or tab, not beginning with [-], and not replaced by
    the value of an identifier. *)
Theorem alias_runs_its_command ndebug fuel (p : cmd_parser_t.t) (cmd : cmd_t.t)
    (alias prev : string) (out : list event) :
  plain_word alias -> no_nul alias = true -> cmd_tokens_t.is_flag alias = false ->
  cmd_tokens_t.substitute (Some (cmd_parser_t.idents_ p)) alias = alias ->
  last (cmd_parser_t.history_ p) = Some prev ->
  (String.length alias < fuel)%nat ->
  exists p1,
    cmd_parser_t.alias_add ndebug p cmd alias = Ret (true, p1) /\
    cmd_parser_t.execute_imp ndebug (S fuel) p1 alias out =
      Ret (let '(b, o) :=
             cmd_t.on_execute cmd (cmd_tokens_t.new (Some (cmd_parser_t.idents_ p))) out in
           (b, cmd_parser_t.history_push_back alias p1, o)).
Proof.
  intros Hpw Hnul Hfl Hsub Hlast Hfuel.
  exists (cmd_parser_t.with_alias p (<[alias := cmd]> (cmd_parser_t.alias_ p))).
  split.
  { unfold cmd_parser_t.alias_add. destruct Hpw as (Hne & _).
    destruct alias; [contradiction|reflexivity]. }
  rewrite execute_imp_S.
  assert (Hl : cmd_parser_t.last_cmd
                 (cmd_parser_t.with_alias p (<[alias := cmd]> (cmd_parser_t.alias_ p))) =
               Ret prev) by (apply last_cmd_Some; exact Hlast).
  rewrite Hl, bind_Ret. cbv zeta.
  change (cmd_parser_t.idents_ (cmd_parser_t.history_push_back alias
            (cmd_parser_t.with_alias p (<[alias := cmd]> (cmd_parser_t.alias_ p)))))
    with (cmd_parser_t.idents_ p).
  rewrite (c_str_no_nul alias Hnul).
  rewrite (tokenize_plain_word alias (cmd_parser_t.idents_ p) fuel Hpw Hfl Hsub Hfuel).
  rewrite bind_Ret. cbn [Nat.eqb].
  unfold cmd_parser_t.resolve, cmd_parser_t.token_front. cbn [tokens_].
  rewrite bind_Ret. unfold cmd_parser_t.alias_find.
  cbn [cmd_parser_t.alias_ cmd_parser_t.history_push_back cmd_parser_t.with_alias].
  rewrite lookup_insert_eq.
  unfold cmd_tokens_t.token_pop. cbn [tokens_ raw_].
  rewrite String.eqb_refl, !bind_Ret.
  cbn [idents_ stage_pair_ pairs_ flags_].
  unfold cmd_parser_t.dispatch. cbn [tokens_ last].
  change {| idents_ := Some (cmd_parser_t.idents_ p); raw_ := []; stage_pair_ := ("", "");
            tokens_ := []; pairs_ := ∅; flags_ := ∅ |}
    with (cmd_tokens_t.new (Some (cmd_parser_t.idents_ p))).
  destruct (cmd_t.on_execute cmd (cmd_tokens_t.new (Some (cmd_parser_t.idents_ p))) out).
  reflexivity.
Qed.

Lemma alias_runs_its_command_witness :
  exists p1,
    cmd_parser_t.alias_add false (demo.parser ["status"]) demo.start "go" = Ret (true, p1) /\
    cmd_parser_t.execute_imp false 4 p1 "go" [] =
      Ret (let '(b, o) :=
             cmd_t.on_execute demo.start (cmd_tokens_t.new (Some ∅)) [] in
           (b, cmd_parser_t.history_push_back "go" p1, o)).
Proof.
  apply (alias_runs_its_command false 3 (demo.parser ["status"]) demo.start "go" "status" []).
  - split; [discriminate|split; reflexivity].
  - reflexivity.
  - reflexivity.
  - reflexivity.
  - reflexivity.
  - simpl. lia.
Defined.



(** X28. Two statements without a positional token call for each other
    for ever: when the statement is not empty and has no positional token,
    and the last entry of the history is such a statement as well,
    [execute_imp] does not return, however much fuel it is given. In the
    source this is a recursion without end. *)
Theorem blank_statements_never_return ndebug (p : cmd_parser_t.t) (expr prev : string)
    (out : list event) :
  blank (cmd_parser_t.idents_ p) expr -> blank (cmd_parser_t.idents_ p) prev ->
  last (cmd_parser_t.history_ p) = Some prev ->
  forall fuel, cmd_parser_t.execute_imp ndebug fuel p expr out = Timeout.
Proof.
  intros He Hp Hlast fuel.
  apply (blank_pair_never_returns ndebug (cmd_parser_t.idents_ p) fuel p expr prev out);
    auto.
Qed.

Lemma blank_statements_never_return_witness :
  cmd_parser_t.execute_imp true 1000 (demo.parser ["-v now"]) "  " [] = Timeout.
Proof.
  apply (blank_statements_never_return true (demo.parser ["-v now"]) "  " "-v now" []).
  - split; [discriminate|]. exists 10%nat. eexists. vm_compute. reflexivity.
  - split; [discriminate|]. exists 10%nat. eexists. vm_compute. reflexivity.
  - reflexivity.
Defined.



(** X30. Options before the command: in a token list that the code has
    built and whose first raw word begins with [-], [token_pop] never
    pops, since no positional token begins with [-]. With assertions it
    stops at the assertion; without them it answers [false] and leaves
    the list as it is. *)
Theorem token_pop_after_leading_flag ndebug (t : cmd_tokens_t) (r : string)
    (raw : list string) :
  built t -> raw_ t = r :: raw -> cmd_tokens_t.is_flag r = true ->
  cmd_tokens_t.token_pop ndebug t = if ndebug then Ret (false, t) else AssertFail.
Proof.
  intros Hb Hraw Hr. destruct (built_words_inv t Hb) as (_ & Htok & _).
  unfold cmd_tokens_t.token_pop. rewrite Hraw.
  destruct (tokens_ t) as [|tok toks]; [reflexivity|].
  inversion Htok as [|? ? [_ Hfl] _]; subst.
  destruct (String.eqb_spec r tok) as [->|_]; [congruence|reflexivity].
Qed.

Lemma token_pop_after_leading_flag_witness :
  cmd_tokens_t.token_pop false (pushes ["-v"; "on"; "start"] (cmd_tokens_t.new None)) =
    AssertFail /\
  cmd_tokens_t.token_pop true (pushes ["-v"; "on"; "start"] (cmd_tokens_t.new None)) =
    Ret (false, pushes ["-v"; "on"; "start"] (cmd_tokens_t.new None)).
Proof.
  split.
  - apply (token_pop_after_leading_flag false _ "-v" ["on"; "start"]);
      [repeat apply built_push; apply built_new|reflexivity|reflexivity].
  - apply (token_pop_after_leading_flag true _ "-v" ["on"; "start"]);
      [repeat apply built_push; apply built_new|reflexivity|reflexivity].
Defined.

(** ** the embedding at work *)

Example str_match_ex1 : cmd_util_t.str_match "status" "sta" = 3.
Proof. reflexivity. Qed.

Example levenshtein_ex1 : cmd_util_t.levenshtein "kitten" "sitting" = Ret 3.
Proof. vm_compute. reflexivity. Qed.

Example strtoll_ex1 : cmd_util_t.strtoll "0x1F" 0 = (true, 31, false).
Proof. vm_compute. reflexivity. Qed.

Example to_string_ex1 : to_string 42 = "42" /\ to_string 0 = "0".
Proof. split; reflexivity. Qed.

Example substitute_ex1 :
  tokens_ (cmd_tokens_t.push "$foo" (cmd_tokens_t.new (Some {[ "foo" := 42 ]}))) = ["42"].
Proof. vm_compute. reflexivity. Qed.

Example split_on_ex1 :
  split_on ";" "" = [""] /\ split_on ";" "a;b" = ["a"; "b"] /\
  split_on ";" ";;" = [""; ""; ""].
Proof. repeat split. Qed.

Example resolve_ex1 :
  cmd_parser_t.execute_imp true 10 (demo.parser ["status"]) "st" [] =
    Ret (false, demo.parser ["status"; "st"],
         [Println "possible completions:"; PrintlnRaw "status"; PrintlnRaw "stop";
          PrintlnRaw "start"; Println "invalid command"]).
Proof. vm_compute. reflexivity. Qed.
